(** * Huddle deploy bot: the deployment loop of [deploy.js]

    A shallow embedding of [deploy.js]: contract compilation, the deployment
    of one token ([deployToken]), the distribution to random recipients
    ([sendToRandomAddresses]) and the endless daily loop ([mainLoop]).

    The script is asynchronous JavaScript talking to a chain node.  It is
    embedded as a state-and-exception monad over a [World]:
    - the world holds the wall clock, the number of [Math.random] draws made
      so far and the trace of every externally visible action;
    - whatever the outside answers (the compiler, the node, the name
      generator, the random generator, the scheduling latency of each
      [await]) is read from an immutable [Env]; the answer to the k-th call
      of one kind is the k-th entry of the oracle of that kind, so that a
      theorem quantified over [Env] covers every behaviour of the outside;
    - a JavaScript exception is the [Throw] result, carrying [err.message];
    - time passes while the script awaits: an awaited action takes the time
      asked for ([wait(ms)]) plus a latency that is not negative, and the
      wall clock is not set back during a run; the two readings of the
      clock in one turn of the countdown are two instants, the second later
      than the first by a part of the latency of the wait that follows.

    Log lines are kept structured ([LogMsg]) instead of formatted: colour
    tags, glyphs, [slice(0, 8)] and [toUpperCase()] only shape the text shown
    on the terminal. *)

From Stdlib Require Import ZArith List String Ascii Bool Lia Permutation.
From Stdlib Require DecimalFacts DecimalN.
From Stdlib Require Import DecimalString.
Import ListNotations.

Local Open Scope string_scope.
Local Open Scope list_scope.
Local Open Scope Z_scope.

(** ** Data *)

(** An [ethers.Wallet]: only its address is observed. *)
Record Wallet := { address : string }.

(** One entry of [generateUniqueNames]'s result. *)
Record TokenSpec := { name : string; symbol : string }.

(** What [compileContract] returns. *)
Record Artifact := { abi : string; bytecode : string }.

(** [new ethers.Contract(deployedAddress, abi, wallet)]. *)
Record Contract := { target : string; interface : string; runner : Wallet }.

(** The result of a computation that may throw [new Error(message)]. *)
Inductive Res (A : Type) : Type :=
| Ok (a : A)
| Throw (message : string).
Arguments Ok {A} a.
Arguments Throw {A} message.

(** The structured content of a [log(...)] line. *)
Inductive LogMsg :=
| LCycle (now : Z)
| LUsingWallet (addr : string)
| LGenerated (names : list string)
| LBalance (addr : string) (balance : Z)
| LDeploying (nm sym : string)
| LAwaiting (txHash : string)
| LDeployedAt (addr : string)
| LSlotDeployed (index : nat) (nm sym tgt : string)
| LSlotFailed (nm message : string)
| LSent (amount : Z) (to : string)
| LSendError (to message : string)
| LFatal (message : string).

(** Externally visible actions, in the order the script performs them. *)
Inductive Event :=
| EvCompile (source : string)                 (* solc.compile *)
| EvGenerateNames (count : nat)               (* generateUniqueNames *)
| EvGetBalance (addr : string)                (* provider.getBalance *)
| EvDeploy (from nm sym : string) (supply : Z) (* factory.deploy *)
| EvWaitForDeployment (txHash : string)       (* contract.waitForDeployment *)
| EvGetAddress (txHash : string)              (* contract.getAddress *)
| EvTransfer (tgt to : string) (amount : Z)   (* contract.transfer *)
| EvTxWait (tgt to : string)                  (* tx.wait *)
| EvLog (time : Z) (m : LogMsg)               (* log *)
| EvStatus (remaining : option Z)             (* statusBox.setContent; screen.render *)
| EvWait (ms : Z)                             (* await wait(ms) *)
| EvExit (code : Z).                          (* process.exit *)

Record World := {
  clock : Z;            (* wall clock, milliseconds *)
  draws : nat;          (* Math.random() calls made so far *)
  trace : list Event    (* actions performed so far, oldest first *)
}.

(** Everything the script reads from outside. *)
Record Env := {
  wallets : list Wallet;                       (* from PRIVATE_KEYS *)
  addresses : list string;                     (* addresses.txt, non-empty lines *)
  tokenSource : string;                        (* token.sol *)
  solc : string -> Res Artifact;               (* compile, parse, pick Token.sol/Token *)
  nameReply : nat -> Res (list TokenSpec);     (* k-th generateUniqueNames call *)
  balanceReply : nat -> Res Z;                 (* k-th getBalance call, in wei *)
  deployReply : nat -> Res string;             (* k-th factory.deploy: the tx hash *)
  confirmReply : nat -> Res unit;              (* k-th waitForDeployment *)
  addressReply : nat -> Res string;            (* k-th getAddress *)
  transferReply : nat -> Res unit;             (* k-th contract.transfer *)
  receiptReply : nat -> Res unit;              (* k-th tx.wait *)
  randomAt : nat -> N;                         (* k-th Math.random(), times 2^53 *)
  lagAt : nat -> N;                            (* extra time taken by the k-th action *)
  skewAt : nat -> N                            (* time gone by at a second clock reading *)
}.

(** ** The monad *)

Definition M (A : Type) : Type := World -> Res A * World.

Definition ret {A} (a : A) : M A := fun w => (Ok a, w).

Definition bind {A B} (m : M A) (k : A -> M B) : M B :=
  fun w => match m w with
           | (Ok a, w') => k a w'
           | (Throw e, w') => (Throw e, w')
           end.

Definition throw {A} (message : string) : M A := fun w => (Throw message, w).

(** [try { body } catch (err) { handler(err.message) }] *)
Definition tryCatch {A} (body : M A) (handler : string -> M A) : M A :=
  fun w => match body w with
           | (Ok a, w') => (Ok a, w')
           | (Throw e, w') => handler e w'
           end.

Definition liftRes {A} (r : Res A) : M A := fun w => (r, w).

Notation "x <- m ;; k" := (bind m (fun x => k))
  (at level 61, m at next level, right associativity).
Notation "m ;;; k" := (bind m (fun _ => k))
  (at level 61, right associativity).

(** [for (const x of xs) body(x)]: a throw leaves the loop. *)
Fixpoint forOf {A} (xs : list A) (body : A -> M unit) : M unit :=
  match xs with
  | [] => ret tt
  | x :: rest => body x ;;; forOf rest body
  end.

(** [for (let i = start; i < xs.length; i++) body(i, xs[i])] *)
Fixpoint forIndex {A} (i : nat) (xs : list A) (body : nat -> A -> M unit) : M unit :=
  match xs with
  | [] => ret tt
  | x :: rest => body i x ;;; forIndex (S i) rest body
  end.

(** ** Primitive actions *)

Definition emit (e : Event) (w : World) : World :=
  {| clock := clock w; draws := draws w; trace := trace w ++ [e] |}.

Definition advance (ms : Z) (w : World) : World :=
  {| clock := clock w + ms; draws := draws w; trace := trace w |}.

(** Number of earlier actions of one kind. *)
Definition calls (kind : Event -> bool) (w : World) : nat :=
  List.length (filter kind (trace w)).

Definition isCompile (e : Event) := match e with EvCompile _ => true | _ => false end.
Definition isGenerateNames (e : Event) := match e with EvGenerateNames _ => true | _ => false end.
Definition isGetBalance (e : Event) := match e with EvGetBalance _ => true | _ => false end.
Definition isDeploy (e : Event) := match e with EvDeploy _ _ _ _ => true | _ => false end.
Definition isWaitForDeployment (e : Event) := match e with EvWaitForDeployment _ => true | _ => false end.
Definition isGetAddress (e : Event) := match e with EvGetAddress _ => true | _ => false end.
Definition isTransfer (e : Event) := match e with EvTransfer _ _ _ => true | _ => false end.
Definition isTxWait (e : Event) := match e with EvTxWait _ _ => true | _ => false end.
Definition isPacing (e : Event) := match e with EvWait 3000 => true | _ => false end.

(** Requests sent to the chain node: the read-only ones and the submissions. *)
Definition isChainCall (e : Event) :=
  match e with
  | EvGetBalance _ | EvDeploy _ _ _ _ | EvWaitForDeployment _ | EvGetAddress _
  | EvTransfer _ _ _ | EvTxWait _ _ => true
  | _ => false
  end.

Definition isSubmission (e : Event) :=
  match e with
  | EvDeploy _ _ _ _ | EvTransfer _ _ _ => true
  | _ => false
  end.

Section Program.

Variable env : Env.

(** An awaited request: the action is recorded, the answer is the oracle's
    entry for this call, and time moves on by the action's own duration plus
    its latency. *)
Definition await {A} (e : Event) (kind : Event -> bool) (reply : nat -> Res A)
    (duration : Z) : M A :=
  fun w =>
    let lag := Z.of_N (lagAt env (List.length (trace w))) in
    (reply (calls kind w), advance (duration + lag) (emit e w)).

(** [await wait(ms)] from timers/promises. *)
Definition wait (ms : Z) : M unit :=
  await (EvWait ms) (fun _ => false) (fun _ => Ok tt) ms.

(** [new Date()] *)
Definition newDate : M Z := fun w => (Ok (clock w), w).

(** [Math.random()], as the numerator of a fraction of 2^53. *)
Definition randomDenominator : N := 2 ^ 53.

Definition mathRandom : M N :=
  fun w => (Ok (randomAt env (draws w) mod randomDenominator)%N,
            {| clock := clock w; draws := S (draws w); trace := trace w |}).

(** [log(message)]: the line is stamped with [new Date()]. *)
Definition log (m : LogMsg) : M unit :=
  fun w => (Ok tt, emit (EvLog (clock w) m) w).

(** [statusBox.setContent(...); screen.render()]: the wallet list, then
    "Next Run:" with the remaining time, or "Calculating..." for [None]. *)
Definition setContent (remaining : option Z) : M unit :=
  fun w => (Ok tt, emit (EvStatus remaining) w).

(** [updateStatus()] *)
Definition updateStatus : M unit := setContent None.

(** ** ethers.parseUnits on the unsigned literals the script uses *)

Definition digitValue (c : ascii) : option Z :=
  let n := Z.of_nat (nat_of_ascii c) in
  if (48 <=? n) && (n <=? 57) then Some (n - 48) else None.

(** Reads [s] as digits up to an optional dot; returns the number read and
    what follows the dot. *)
Fixpoint readWhole (acc : Z) (s : string) : option (Z * option string) :=
  match s with
  | EmptyString => Some (acc, None)
  | String c rest =>
      if Ascii.eqb c "."%char then Some (acc, Some rest)
      else match digitValue c with
           | Some d => readWhole (acc * 10 + d) rest
           | None => None
           end
  end.

(** Reads at most [places] fractional digits, padding with zeros; digits
    beyond [places] must be zeros. *)
Fixpoint readFraction (places : nat) (acc : Z) (s : string) : option Z :=
  match s with
  | EmptyString => Some (acc * 10 ^ Z.of_nat places)
  | String c rest =>
      match digitValue c with
      | None => None
      | Some d =>
          match places with
          | O => if d =? 0 then readFraction O acc rest else None
          | S p => readFraction p (acc * 10 + d) rest
          end
      end
  end.

Definition parseUnits (value : string) (decimals : nat) : Res Z :=
  match value with
  | EmptyString => Throw "invalid FixedNumber string value"
  | "." => Throw "invalid FixedNumber string value"
  | _ =>
      match readWhole 0 value with
      | Some (whole, None) => Ok (whole * 10 ^ Z.of_nat decimals)
      | Some (whole, Some fraction) =>
          match readFraction decimals whole fraction with
          | Some v => Ok v
          | None => Throw "invalid FixedNumber string value"
          end
      | None => Throw "invalid FixedNumber string value"
      end
  end.

Definition parseEther (value : string) : Res Z := parseUnits value 18.

(** ** Compile contract *)

(** [compileContract()]: every call runs [solc.compile] on [tokenSource];
    a compiler output without the contract makes the property access throw. *)
Definition compileContract : M Artifact :=
  fun w => (solc env (tokenSource env), emit (EvCompile (tokenSource env)) w).

(** ** Deploy token *)

Definition balanceTooLow : string := "⚠️ Balance too low to deploy contract.".

Definition deployToken (wallet : Wallet) (nm sym : string) : M Contract :=
  art <- compileContract ;;
  initialSupply <- liftRes (parseUnits "1000" 18) ;;
  balance <- await (EvGetBalance (address wallet)) isGetBalance (balanceReply env) 0 ;;
  log (LBalance (address wallet) balance) ;;;
  threshold <- liftRes (parseEther "0.000001") ;;
  (if balance <? threshold then throw balanceTooLow else ret tt) ;;;
  log (LDeploying nm sym) ;;;
  txHash <- tryCatch
              (await (EvDeploy (address wallet) nm sym initialSupply) isDeploy
                     (deployReply env) 0)
              (fun message => throw ("❌ Deploy error: " ++ message)%string) ;;
  log (LAwaiting txHash) ;;;
  tryCatch
    (await (EvWaitForDeployment txHash) isWaitForDeployment (confirmReply env) 0)
    (fun message => throw ("❌ waitForDeployment error: " ++ message)%string) ;;;
  deployedAddress <- await (EvGetAddress txHash) isGetAddress (addressReply env) 0 ;;
  log (LDeployedAt deployedAddress) ;;;
  ret {| target := deployedAddress; interface := abi art; runner := wallet |}.

(** ** Send tokens to random addresses *)

(** The comparator [() => 0.5 - Math.random()]: negative, zero or positive. *)
Definition randomComparator : M Z :=
  r <- mathRandom ;;
  ret (Z.of_N randomDenominator - 2 * Z.of_N r).

(** [Array.prototype.sort(comparefn)].  With a comparator that is not
    consistent the order is left to the engine; the embedding takes an
    insertion sort, and what is proved of the result only uses that it is a
    rearrangement of the array. *)
Fixpoint sortInsert {A} (x : A) (sorted : list A) : M (list A) :=
  match sorted with
  | [] => ret [x]
  | y :: rest =>
      c <- randomComparator ;;
      if c <? 0 then ret (x :: y :: rest)
      else (r <- sortInsert x rest ;; ret (y :: r))
  end.

Fixpoint sort {A} (xs : list A) : M (list A) :=
  match xs with
  | [] => ret []
  | x :: rest => sorted <- sort rest ;; sortInsert x sorted
  end.

(** [Array.prototype.slice(start, end)] for indices that are not negative. *)
Definition slice {A} (start stop : nat) (xs : list A) : list A :=
  firstn (stop - start) (skipn start xs).

(** [[...addresses].sort(() => 0.5 - Math.random()).slice(0, size)] *)
Definition sample (size : nat) : M (list string) :=
  shuffled <- sort (addresses env) ;;
  ret (slice 0 size shuffled).

(** The double nearest to the whole number [n], ties going to the even
    significand: a double holds 53 significant bits. *)
Definition roundToDouble (n : N) : N :=
  let excess := (N.size n - 53)%N in
  match excess with
  | 0%N => n
  | _ =>
      let unit := (2 ^ excess)%N in
      let kept := (n / unit)%N in
      let rest := (n mod unit)%N in
      let half := (unit / 2)%N in
      if (rest <? half)%N then (kept * unit)%N
      else if (half <? rest)%N then ((kept + 1) * unit)%N
      else if N.even kept then (kept * unit)%N
      else ((kept + 1) * unit)%N
  end.

(** [Math.floor(Math.random() * 50) + 1] for the draw of numerator [r]: the
    product of the doubles r / 2^53 and 50 is the double nearest to
    50 r / 2^53. *)
Definition tokensDrawn (r : N) : N :=
  (roundToDouble (r * 50) / randomDenominator + 1)%N.

(** [Number.prototype.toString()] for a whole number that is not negative
    and is below 10^21. *)
Definition toString (n : N) : string := NilEmpty.string_of_uint (N.to_uint n).

(** [ethers.parseUnits((Math.floor(Math.random() * 50) + 1).toString(), 18)] *)
Definition randomAmount : M Z :=
  r <- mathRandom ;;
  liftRes (parseUnits (toString (tokensDrawn r)) 18).

(** The body of the loop over the targets. *)
Definition sendTo (contract : Contract) (to : string) : M unit :=
  amount <- randomAmount ;;
  tryCatch
    (await (EvTransfer (target contract) to amount) isTransfer (transferReply env) 0 ;;;
     await (EvTxWait (target contract) to) isTxWait (receiptReply env) 0 ;;;
     log (LSent amount to))
    (fun message => log (LSendError to message)).

Definition sendToRandomAddresses (contract : Contract) : M unit :=
  targets <- sample 7 ;;
  forOf targets (sendTo contract).

(** ** Main loop *)

(** [generateUniqueNames(count)] lives in utils/randomName.js; its result,
    a list of specs or a throw, is the oracle's. *)
Definition generateUniqueNames (count : nat) : M (list TokenSpec) :=
  fun w => (nameReply env (calls isGenerateNames w), emit (EvGenerateNames count) w).

(** One deployment attempt with its distribution: the [try]/[catch] of the
    inner loop, without the pacing delay. *)
Definition attempt (wallet : Wallet) (i : nat) (spec : TokenSpec) : M unit :=
  tryCatch
    (contract <- deployToken wallet (name spec) (symbol spec) ;;
     log (LSlotDeployed (i + 1) (name spec) (symbol spec) (target contract)) ;;;
     sendToRandomAddresses contract)
    (fun message => log (LSlotFailed (name spec) message)).

(** The body of the loop over [names]. *)
Definition slot (wallet : Wallet) (i : nat) (spec : TokenSpec) : M unit :=
  attempt wallet i spec ;;;
  wait 3000.

(** The body of the loop over [wallets]. *)
Definition walletBatch (wallet : Wallet) : M unit :=
  log (LUsingWallet (address wallet)) ;;;
  names <- generateUniqueNames 5 ;;
  log (LGenerated (map name names)) ;;;
  forIndex 0 names (slot wallet).

Definition dayMs : Z := 24 * 60 * 60 * 1000.

(** [new Date()] read a second time, after the loop's test and before the
    display and the wait.  The time gone by since the first reading is part
    of what the wait that follows takes beyond the time asked for, so the
    second reading lies between the first reading and the end of a wait
    started at the first; the clock of the world stays at the first
    reading. *)
Definition secondReading (w : World) : Z :=
  let index := List.length (trace w) in
  clock w + Z.of_N (N.min (skewAt env index) (lagAt env (S index))).

Definition laterDate : M Z := fun w => (Ok (secondReading w), w).

(** [while (new Date() < nextRun) { ...; await wait(1000) }].  The loop is
    unbounded in the script; [ticks] bounds the number of iterations run
    here, and [countdownTicks] below is enough for it to end by its test. *)
Fixpoint countdownLoop (ticks : nat) (nextRun : Z) : M unit :=
  match ticks with
  | O => ret tt
  | S ticks' =>
      t <- newDate ;;
      if t <? nextRun then
        (t' <- laterDate ;;
         setContent (Some (nextRun - t')) ;;;
         wait 1000 ;;;
         countdownLoop ticks' nextRun)
      else ret tt
  end.

Definition countdownTicks (nextRun : Z) (w : World) : nat :=
  Z.to_nat ((nextRun - clock w) / 1000 + 1).

Definition countdown (nextRun : Z) : M unit :=
  fun w => countdownLoop (countdownTicks nextRun w) nextRun w.

(** One turn of [while (true)]: a cycle over the wallets, then the wait
    until 24 hours after the cycle's start. *)
Definition cycle : M unit :=
  now <- newDate ;;
  log (LCycle now) ;;;
  forOf (wallets env) walletBatch ;;;
  let nextRun := now + dayMs in
  countdown nextRun.

(** [mainLoop()], cut after [cycles] turns of [while (true)]: the loop has
    no exit of its own, so [Ok tt] after the last turn stands for a loop
    that is still running. *)
Fixpoint whileTrue (cycles : nat) : M unit :=
  match cycles with
  | O => ret tt
  | S cycles' => cycle ;;; whileTrue cycles'
  end.

Definition mainLoop (cycles : nat) : M unit :=
  updateStatus ;;;
  whileTrue cycles.

(** [mainLoop().catch(err => { log(...); process.exit(1); })] *)
Definition main (cycles : nat) (w : World) : World :=
  match mainLoop cycles w with
  | (Ok _, w') => w'
  | (Throw message, w') =>
      emit (EvExit 1) (snd (log (LFatal message) w'))
  end.

End Program.

(** ** Observing a run *)

(** The actions performed between two worlds of one run. *)
Definition since (w w' : World) : list Event :=
  skipn (List.length (trace w)) (trace w').

Definition result {A} (m : M A) (w : World) : Res A := fst (m w).
Definition after {A} (m : M A) (w : World) : World := snd (m w).

(** The actions a computation performs from [w]. *)
Definition performed {A} (m : M A) (w : World) : list Event :=
  since w (after m w).

Definition recipient (e : Event) : list string :=
  match e with EvTransfer _ to _ => [to] | _ => [] end.

Definition sender (e : Event) : list string :=
  match e with EvTransfer tgt _ _ => [tgt] | _ => [] end.

(** The recipients of the transfers among some actions, in order. *)
Definition recipients (d : list Event) : list string := flat_map recipient d.

(** The outcome recorded for one recipient: sent, or failed with a message. *)
Inductive Outcome :=
| Sent (to : string)
| Failed (to message : string).

Definition outcome (e : Event) : list Outcome :=
  match e with
  | EvLog _ (LSent _ to) => [Sent to]
  | EvLog _ (LSendError to message) => [Failed to message]
  | _ => []
  end.

Definition outcomes (d : list Event) : list Outcome := flat_map outcome d.

Definition outcomeRecipient (o : Outcome) : string :=
  match o with Sent to => to | Failed to _ => to end.

(** The start times of the cycles logged among some actions, in order. *)
Definition cycleStart (e : Event) : list Z :=
  match e with EvLog _ (LCycle now) => [now] | _ => [] end.

Definition cycleStarts (d : list Event) : list Z := flat_map cycleStart d.

(** Consecutive start times are at least 24 hours apart. *)
Fixpoint spaced (starts : list Z) : Prop :=
  match starts with
  | a :: (b :: _) as later => a + dayMs <= b /\ spaced later
  | _ => True
  end.

(** The remaining times shown by the countdown among some actions. *)
Definition remainingShown (e : Event) : list Z :=
  match e with EvStatus (Some r) => [r] | _ => [] end.

Definition countdownShown (d : list Event) : list Z := flat_map remainingShown d.

(** Each value shown is at least one second below the one before. *)
Fixpoint descending (shown : list Z) : Prop :=
  match shown with
  | a :: (b :: _) as later => b + 1000 <= a /\ descending later
  | _ => True
  end.

(** The actions of a wait that shows [shown]: each value is displayed and
    followed by a wait of one second. *)
Definition countdownTurns (shown : list Z) : list Event :=
  flat_map (fun r => [EvStatus (Some r); EvWait 1000]) shown.

(** The start of an attempt, or a pacing delay. *)
Definition isAttemptOrPacing (e : Event) : bool := isCompile e || isPacing e.

(** The value of [ethers.parseEther("0.000001")], in wei. *)
Definition minimumBalance : Z := 10 ^ 12.

(** ** Sample environments *)

Definition aliceWallet : Wallet := {| address := "0xA11CE" |}.
Definition bobWallet : Wallet := {| address := "0xB0B" |}.

Definition tokenArtifact : Artifact := {| abi := "[transfer]"; bytecode := "0x6080" |}.

Definition twoSpecs : list TokenSpec :=
  [ {| name := "Lunar Fox"; symbol := "LFX" |};
    {| name := "Solar Owl"; symbol := "SOW" |} ].

Definition tenAddresses : list string :=
  ["0x01"; "0x02"; "0x03"; "0x04"; "0x05"; "0x06"; "0x07"; "0x08"; "0x09"; "0x0a"].

(** A node where everything succeeds, but the second and the fifth transfer
    of the run are rejected, and every action takes 2 ms more than asked. *)
Definition sampleEnv : Env := {|
  wallets := [aliceWallet; bobWallet];
  addresses := tenAddresses;
  tokenSource := "contract Token {}";
  solc := fun _ => Ok tokenArtifact;
  nameReply := fun _ => Ok twoSpecs;
  balanceReply := fun _ => Ok (5 * 10 ^ 12);
  deployReply := fun k => Ok (if Nat.even k then "0x7e" else "0x7f");
  confirmReply := fun _ => Ok tt;
  addressReply := fun k => Ok (if Nat.even k then "0xC0" else "0xC1");
  transferReply := fun k => if (Nat.eqb k 1 || Nat.eqb k 4)%bool then Throw "reverted" else Ok tt;
  receiptReply := fun _ => Ok tt;
  randomAt := fun k => (N.of_nat k * 6364136223846793005 + 1442695040888963407)%N;
  lagAt := fun _ => 2%N;
  skewAt := fun k => if Nat.even k then 1%N else 5%N
|}.

(** The same node for a wallet that holds less than the minimum. *)
Definition poorEnv : Env := {|
  wallets := [aliceWallet];
  addresses := tenAddresses;
  tokenSource := tokenSource sampleEnv;
  solc := solc sampleEnv;
  nameReply := nameReply sampleEnv;
  balanceReply := fun _ => Ok 999999999999;
  deployReply := deployReply sampleEnv;
  confirmReply := confirmReply sampleEnv;
  addressReply := addressReply sampleEnv;
  transferReply := transferReply sampleEnv;
  receiptReply := receiptReply sampleEnv;
  randomAt := randomAt sampleEnv;
  lagAt := lagAt sampleEnv;
  skewAt := skewAt sampleEnv
|}.

(** The same node with a name generator that gives up on the second batch. *)
Definition exhaustedEnv : Env := {|
  wallets := [aliceWallet; bobWallet];
  addresses := ["0x01"; "0x02"];
  tokenSource := tokenSource sampleEnv;
  solc := solc sampleEnv;
  nameReply := fun k => if Nat.eqb k 1 then Throw "GenerationExhausted" else Ok twoSpecs;
  balanceReply := balanceReply sampleEnv;
  deployReply := deployReply sampleEnv;
  confirmReply := confirmReply sampleEnv;
  addressReply := addressReply sampleEnv;
  transferReply := fun _ => Ok tt;
  receiptReply := receiptReply sampleEnv;
  randomAt := randomAt sampleEnv;
  lagAt := lagAt sampleEnv;
  skewAt := skewAt sampleEnv
|}.

(** The same node where no transfer is rejected. *)
Definition smoothEnv : Env := {|
  wallets := wallets sampleEnv;
  addresses := tenAddresses;
  tokenSource := tokenSource sampleEnv;
  solc := solc sampleEnv;
  nameReply := nameReply sampleEnv;
  balanceReply := balanceReply sampleEnv;
  deployReply := deployReply sampleEnv;
  confirmReply := confirmReply sampleEnv;
  addressReply := addressReply sampleEnv;
  transferReply := fun _ => Ok tt;
  receiptReply := receiptReply sampleEnv;
  randomAt := randomAt sampleEnv;
  lagAt := lagAt sampleEnv;
  skewAt := skewAt sampleEnv
|}.

Definition world0 : World := {| clock := 1700000000000; draws := 0; trace := [] |}.

Definition sampleContract : Contract :=
  {| target := "0xC0"; interface := abi tokenArtifact; runner := aliceWallet |}.

(** ** What one deployment and one distribution perform *)

(** The actions of [deployToken] after the compilation. *)
Definition inDeployment (e : Event) : bool :=
  match e with
  | EvGetBalance _ | EvDeploy _ _ _ _ | EvWaitForDeployment _ | EvGetAddress _ => true
  | EvLog _ (LBalance _ _) | EvLog _ (LDeploying _ _)
  | EvLog _ (LAwaiting _) | EvLog _ (LDeployedAt _) => true
  | _ => false
  end.

(** The actions of [sendToRandomAddresses]. *)
Definition inDistribution (e : Event) : bool :=
  match e with
  | EvTransfer _ _ _ | EvTxWait _ _ => true
  | EvLog _ (LSent _ _) | EvLog _ (LSendError _ _) => true
  | _ => false
  end.

(** The actions of one attempt after the compilation. *)
Definition inAttempt (e : Event) : bool :=
  match e with
  | EvLog _ (LSlotDeployed _ _ _ _) | EvLog _ (LSlotFailed _ _) => true
  | _ => inDeployment e || inDistribution e
  end.

(** The actions of one cycle over the wallets. *)
Definition inCycle (e : Event) : bool :=
  match e with
  | EvCompile _ | EvGenerateNames _ | EvWait 3000 => true
  | EvLog _ (LUsingWallet _) | EvLog _ (LGenerated _) => true
  | _ => inAttempt e
  end.

(** The actions of the wait for the next cycle. *)
Definition inCountdown (e : Event) : bool :=
  match e with
  | EvStatus (Some _) | EvWait 1000 => true
  | _ => false
  end.

(** [n] attempts, each followed by its pacing delay. *)
Definition pacedAttempts (source : string) (n : nat) : list Event :=
  List.concat (repeat [EvCompile source; EvWait 3000] n).

(** The number of specs in the batches [first], ..., [first + count - 1]
    of the name generator. *)
Fixpoint batchSizes (env : Env) (first count : nat) : nat :=
  match count with
  | O => O
  | S count' =>
      (match nameReply env first with
       | Ok names => List.length names
       | Throw _ => O
       end + batchSizes env (S first) count')%nat
  end.

(** The actions of [deployToken] after the contract creation was sent. *)
Definition afterSubmission (e : Event) : bool :=
  match e with
  | EvWaitForDeployment _ | EvGetAddress _ => true
  | EvLog _ (LAwaiting _) | EvLog _ (LDeployedAt _) => true
  | _ => false
  end.

Definition silent (e : Event) : bool := false.

(** The outcomes the node's answers give for the transfers to [targets],
    when [t] transfers and [r] confirmations were asked for before. *)
Fixpoint expectedOutcomes (env : Env) (targets : list string) (t r : nat) : list Outcome :=
  match targets with
  | [] => []
  | to :: rest =>
      match transferReply env t with
      | Throw message => Failed to message :: expectedOutcomes env rest (S t) r
      | Ok _ =>
          match receiptReply env r with
          | Throw message => Failed to message :: expectedOutcomes env rest (S t) (S r)
          | Ok _ => Sent to :: expectedOutcomes env rest (S t) (S r)
          end
      end
  end.

(** ** Loading the configuration *)

(** [String.prototype.split(separator)] for a separator of one character. *)
Fixpoint split (separator : ascii) (s : string) : list string :=
  match s with
  | EmptyString => [EmptyString]
  | String c rest =>
      if Ascii.eqb c separator then EmptyString :: split separator rest
      else match split separator rest with
           | piece :: pieces => String c piece :: pieces
           | [] => [String c EmptyString]
           end
  end.

(** [Boolean(s)] for a string: only the empty string is falsy. *)
Definition nonEmpty (s : string) : bool :=
  match s with EmptyString => false | String _ _ => true end.

Definition newline : ascii := "010"%char.
Definition comma : ascii := ","%char.

(** [process.env.PRIVATE_KEYS.split(",")]: a variable that is not set is
    [undefined], and reading its [split] throws a TypeError. *)
Definition privateKeys (PRIVATE_KEYS : option string) : Res (list string) :=
  match PRIVATE_KEYS with
  | Some value => Ok (split comma value)
  | None => Throw "Cannot read properties of undefined (reading 'split')"
  end.

(** [fs.readFileSync("addresses.txt", "utf-8").split("\n").filter(Boolean)] *)
Definition loadAddresses (text : string) : list string :=
  filter nonEmpty (split newline text).

(** The lines of a text put together again, [Array.prototype.join]. *)
Fixpoint joinWith (separator : ascii) (pieces : list string) : string :=
  match pieces with
  | [] => EmptyString
  | [piece] => piece
  | piece :: rest => (piece ++ String separator (joinWith separator rest))%string
  end.

Fixpoint contains (c : ascii) (s : string) : bool :=
  match s with
  | EmptyString => false
  | String c' rest => Ascii.eqb c' c || contains c rest
  end.

(** ** Formatting *)

Definition digitChar (n : Z) : ascii := ascii_of_nat (48 + Z.to_nat n).

Definition pad2 (n : Z) : string :=
  String (digitChar (n / 10)) (String (digitChar (n mod 10)) EmptyString).

(** [new Date(ms).toISOString().substr(11, 8)]: the time of day, in UTC, of
    the instant [ms] milliseconds after the epoch. *)
Definition countdownText (ms : Z) : string :=
  (pad2 ((ms / 3600000) mod 24) ++ ":" ++ pad2 ((ms / 60000) mod 60) ++ ":"
   ++ pad2 ((ms / 1000) mod 60))%string.

(** The whole seconds that a text "HH:MM:SS" stands for. *)
Definition readTwo (tens units : ascii) : option Z :=
  match digitValue tens, digitValue units with
  | Some a, Some b => Some (10 * a + b)
  | _, _ => None
  end.

Definition readClock (text : string) : option Z :=
  match text with
  | String h1 (String h2 (String ":" (String m1 (String m2 (String ":"
      (String s1 (String s2 EmptyString))))))) =>
      match readTwo h1 h2, readTwo m1 m2, readTwo s1 s2 with
      | Some h, Some m, Some sec => Some (h * 3600 + m * 60 + sec)
      | _, _, _ => None
      end
  | _ => None
  end.

(** ** The course of one deployment *)

(** What [deployToken] returns or throws and the requests it sends to the
    node, read off the answers of the compiler and of the node to the
    [kb]-th balance query, the [kd]-th contract creation, the [kc]-th
    confirmation and the [ka]-th address resolution. *)
Definition deployment (env : Env) (wallet : Wallet) (nm sym : string)
    (kb kd kc ka : nat) : Res Contract * list Event :=
  match solc env (tokenSource env) with
  | Throw message => (Throw message, [])
  | Ok art =>
      let query := EvGetBalance (address wallet) in
      match balanceReply env kb with
      | Throw message => (Throw message, [query])
      | Ok balance =>
          if balance <? minimumBalance then (Throw balanceTooLow, [query])
          else
            let creation := EvDeploy (address wallet) nm sym (1000 * 10 ^ 18) in
            match deployReply env kd with
            | Throw message => (Throw ("❌ Deploy error: " ++ message)%string, [query; creation])
            | Ok txHash =>
                match confirmReply env kc with
                | Throw message =>
                    (Throw ("❌ waitForDeployment error: " ++ message)%string,
                     [query; creation; EvWaitForDeployment txHash])
                | Ok _ =>
                    let requests :=
                      [query; creation; EvWaitForDeployment txHash; EvGetAddress txHash] in
                    match addressReply env ka with
                    | Throw message => (Throw message, requests)
                    | Ok deployedAddress =>
                        (Ok {| target := deployedAddress; interface := abi art;
                               runner := wallet |}, requests)
                    end
                end
            end
      end
  end.

(** The wallet on whose behalf a request is sent. *)
Definition requester (e : Event) : list string :=
  match e with
  | EvGetBalance a => [a]
  | EvDeploy a _ _ _ => [a]
  | _ => []
  end.

(** The name on the line that closes a slot, deployed or failed. *)
Definition slotLine (e : Event) : list string :=
  match e with
  | EvLog _ (LSlotDeployed _ nm _ _) => [nm]
  | EvLog _ (LSlotFailed nm _) => [nm]
  | _ => []
  end.

Definition amount (e : Event) : list Z :=
  match e with EvTransfer _ _ a => [a] | _ => [] end.

Definition isOk {A} (r : Res A) : bool :=
  match r with Ok _ => true | Throw _ => false end.

(** The transfers the node accepts among [count] transfers, [first] having
    been asked for before. *)
Definition accepted (env : Env) (first count : nat) : nat :=
  List.length (filter isOk (map (transferReply env) (seq first count))).

(** A node as in [sampleEnv] that refuses every contract creation. *)
Definition refusingEnv : Env := {|
  wallets := wallets sampleEnv;
  addresses := tenAddresses;
  tokenSource := tokenSource sampleEnv;
  solc := solc sampleEnv;
  nameReply := nameReply sampleEnv;
  balanceReply := balanceReply sampleEnv;
  deployReply := fun _ => Throw "insufficient funds for gas";
  confirmReply := confirmReply sampleEnv;
  addressReply := addressReply sampleEnv;
  transferReply := transferReply sampleEnv;
  receiptReply := receiptReply sampleEnv;
  randomAt := randomAt sampleEnv;
  lagAt := lagAt sampleEnv;
  skewAt := skewAt sampleEnv
|}.

(** A node as in [sampleEnv], with a contract that does not compile. *)
Definition brokenEnv : Env := {|
  wallets := wallets sampleEnv;
  addresses := tenAddresses;
  tokenSource := "contract Token {";
  solc := fun _ => Throw "Cannot read properties of undefined (reading 'Token.sol')";
  nameReply := nameReply sampleEnv;
  balanceReply := balanceReply sampleEnv;
  deployReply := deployReply sampleEnv;
  confirmReply := confirmReply sampleEnv;
  addressReply := addressReply sampleEnv;
  transferReply := transferReply sampleEnv;
  receiptReply := receiptReply sampleEnv;
  randomAt := randomAt sampleEnv;
  lagAt := lagAt sampleEnv;
  skewAt := skewAt sampleEnv
|}.

(** An action that is not a request to the node. *)
Definition offChain (e : Event) : bool := negb (isChainCall e).

(** An action that is not a transfer, or a transfer of a whole number of
    tokens from 1 to 50. *)
Definition wholeTokens (e : Event) : bool :=
  match e with
  | EvTransfer _ _ a => (10 ^ 18 <=? a) && (a <=? 50 * 10 ^ 18) && (a mod 10 ^ 18 =? 0)
  | _ => true
  end.

(** ** Properties of computations *)

(** A computation only performs actions of some kind, and the clock never
    goes back. *)
Definition Emits {A} (p : Event -> bool) (m : M A) : Prop :=
  forall w, exists d,
    trace (after m w) = trace w ++ d /\
    Forall (fun e => p e = true) d /\
    clock w <= clock (after m w).

(** A computation never throws. *)
Definition Returns {A} (m : M A) : Prop :=
  forall w, exists a, result m w = Ok a.

(** * Proof rules *)

(** ** Lists *)

Lemma since_extension (w w' : World) (d : list Event) :
  trace w' = trace w ++ d -> since w w' = d.
Proof.
  intros E. unfold since. rewrite E.
  rewrite skipn_app, skipn_all, Nat.sub_diag. reflexivity.
Qed.

Lemma filter_none {A} (p q : A -> bool) (d : list A) :
  Forall (fun e => p e = true) d ->
  (forall e, p e = true -> q e = false) ->
  filter q d = [].
Proof.
  intros F I. induction F as [|e d He _ IH]; simpl.
  - reflexivity.
  - rewrite (I e He). exact IH.
Qed.

Lemma flat_map_none {A B} (p : A -> bool) (f : A -> list B) (d : list A) :
  Forall (fun e => p e = true) d ->
  (forall e, p e = true -> f e = []) ->
  flat_map f d = [].
Proof.
  intros F I. induction F as [|e d He _ IH]; simpl.
  - reflexivity.
  - rewrite (I e He). exact IH.
Qed.

Lemma calls_extension (kind : Event -> bool) (w w' : World) (d : list Event) :
  trace w' = trace w ++ d ->
  calls kind w' = (calls kind w + List.length (filter kind d))%nat.
Proof.
  intros E. unfold calls. rewrite E, filter_app, length_app. reflexivity.
Qed.

(** ** Rules for [Emits] *)

Lemma Emits_weaken {A} (p q : Event -> bool) (m : M A) :
  (forall e, p e = true -> q e = true) -> Emits p m -> Emits q m.
Proof.
  intros I H w. destruct (H w) as (d & E & F & C).
  exists d. repeat split; trivial.
  eapply Forall_impl; [|exact F]. exact I.
Qed.

Lemma Emits_ret {A} p (a : A) : Emits p (ret a).
Proof. intros w. exists []. unfold after; simpl. rewrite app_nil_r. repeat split; trivial; lia. Qed.

Lemma Emits_throw {A} p message : Emits p (@throw A message).
Proof. intros w. exists []. unfold after; simpl. rewrite app_nil_r. repeat split; trivial; lia. Qed.

Lemma Emits_liftRes {A} p (r : Res A) : Emits p (liftRes r).
Proof. intros w. exists []. unfold after; simpl. rewrite app_nil_r. repeat split; trivial; lia. Qed.

Lemma Emits_newDate p : Emits p newDate.
Proof. intros w. exists []. unfold after; simpl. rewrite app_nil_r. repeat split; trivial; lia. Qed.

Lemma Emits_laterDate env p : Emits p (laterDate env).
Proof. intros w. exists []. unfold after; simpl. rewrite app_nil_r. repeat split; trivial; lia. Qed.

Lemma Emits_mathRandom env p : Emits p (mathRandom env).
Proof. intros w. exists []. unfold after; simpl. rewrite app_nil_r. repeat split; trivial; lia. Qed.

Lemma Emits_log (p : Event -> bool) m :
  (forall t, p (EvLog t m) = true) -> Emits p (log m).
Proof.
  intros H w. exists [EvLog (clock w) m]. unfold after; simpl.
  repeat split; [repeat constructor; apply H | lia].
Qed.

Lemma Emits_setContent (p : Event -> bool) remaining :
  p (EvStatus remaining) = true -> Emits p (setContent remaining).
Proof.
  intros H w. exists [EvStatus remaining]. unfold after; simpl.
  repeat split; [repeat constructor; exact H | lia].
Qed.

Lemma Emits_await {A} env (p : Event -> bool) e kind (reply : nat -> Res A) duration :
  p e = true -> 0 <= duration -> Emits p (await env e kind reply duration).
Proof.
  intros H D w. exists [e]. unfold after; simpl.
  repeat split; [repeat constructor; exact H | lia].
Qed.

Lemma Emits_bind {A B} p (m : M A) (k : A -> M B) :
  Emits p m -> (forall a, Emits p (k a)) -> Emits p (bind m k).
Proof.
  intros Hm Hk w. destruct (Hm w) as (d & E & F & C).
  unfold after, bind in *. destruct (m w) as [[a|e] w1]; simpl in *.
  - destruct (Hk a w1) as (d' & E' & F' & C'). unfold after in *.
    exists (d ++ d'). rewrite E', E, app_assoc.
    repeat split; [apply Forall_app; split; assumption | lia].
  - exists d. repeat split; assumption.
Qed.

Lemma Emits_tryCatch {A} p (body : M A) (handler : string -> M A) :
  Emits p body -> (forall e, Emits p (handler e)) -> Emits p (tryCatch body handler).
Proof.
  intros Hm Hk w. destruct (Hm w) as (d & E & F & C).
  unfold after, tryCatch in *. destruct (body w) as [[a|e] w1]; simpl in *.
  - exists d. repeat split; assumption.
  - destruct (Hk e w1) as (d' & E' & F' & C'). unfold after in *.
    exists (d ++ d'). rewrite E', E, app_assoc.
    repeat split; [apply Forall_app; split; assumption | lia].
Qed.

Lemma Emits_forOf {A} p (xs : list A) (body : A -> M unit) :
  (forall x, Emits p (body x)) -> Emits p (forOf xs body).
Proof.
  intros H. induction xs as [|x xs IH]; simpl.
  - apply Emits_ret.
  - apply Emits_bind; [apply H | intros _; exact IH].
Qed.

Lemma Emits_forIndex {A} p (xs : list A) (body : nat -> A -> M unit) i :
  (forall j x, Emits p (body j x)) -> Emits p (forIndex i xs body).
Proof.
  intros H. revert i. induction xs as [|x xs IH]; intros i; simpl.
  - apply Emits_ret.
  - apply Emits_bind; [apply H | intros _; apply IH].
Qed.

(** Chains the rules above through a computation. *)
Ltac emits :=
  repeat lazymatch goal with
  | |- Emits _ (ret _) => apply Emits_ret
  | |- Emits _ (throw _) => apply Emits_throw
  | |- Emits _ (liftRes _) => apply Emits_liftRes
  | |- Emits _ newDate => apply Emits_newDate
  | |- Emits _ (laterDate _) => apply Emits_laterDate
  | |- Emits _ (mathRandom _) => apply Emits_mathRandom
  | |- Emits _ (log _) => apply Emits_log; intros; reflexivity
  | |- Emits _ (await _ _ _ _ _) => apply Emits_await; [reflexivity | lia]
  | |- Emits _ (setContent _) => apply Emits_setContent; reflexivity
  | |- Emits _ (bind _ _) => apply Emits_bind; [|intros]
  | |- Emits _ (tryCatch _ _) => apply Emits_tryCatch; [|intros]
  | |- Emits _ (if ?c then _ else _) => destruct c
  end.

Section Rules.

Variable env : Env.

Lemma Emits_sortInsert {A} p (x : A) sorted : Emits p (sortInsert env x sorted).
Proof.
  induction sorted as [|y rest IH]; simpl.
  - emits.
  - unfold randomComparator. emits. exact IH.
Qed.

Lemma Emits_sort {A} p (xs : list A) : Emits p (sort env xs).
Proof.
  induction xs as [|x rest IH]; simpl.
  - emits.
  - emits; [exact IH | apply Emits_sortInsert].
Qed.

Lemma Emits_sendTo contract to : Emits inDistribution (sendTo env contract to).
Proof. unfold sendTo, randomAmount. emits. Qed.

Lemma Emits_sendToRandomAddresses contract :
  Emits inDistribution (sendToRandomAddresses env contract).
Proof.
  unfold sendToRandomAddresses, sample. emits.
  - apply Emits_sort.
  - apply Emits_forOf. intros. apply Emits_sendTo.
Qed.

End Rules.

(** ** The amount drawn *)

Lemma run_bind {A B} (m : M A) (k : A -> M B) w :
  bind m k w = match m w with
               | (Ok a, w1) => k a w1
               | (Throw e, w1) => (Throw e, w1)
               end.
Proof. reflexivity. Qed.

Lemma readWhole_pos d : forall p,
  readWhole (Z.pos p) (NilEmpty.string_of_uint d) = Some (Z.pos (Pos.of_uint_acc d p), None).
Proof.
  induction d; intros p; cbn [NilEmpty.string_of_uint Pos.of_uint_acc];
    [reflexivity|..];
    unfold readWhole; fold readWhole;
    match goal with |- context [Ascii.eqb ?c ?d] => change (Ascii.eqb c d) with false end;
    match goal with |- context [digitValue ?c] =>
      let v := eval vm_compute in (digitValue c) in change (digitValue c) with v end;
    cbv beta iota;
    match goal with |- readWhole ?a _ = Some (Z.pos (Pos.of_uint_acc _ ?q), None) =>
      replace a with (Z.pos q) by lia end;
    apply IHd.
Qed.

Lemma readWhole_zero d :
  readWhole 0 (NilEmpty.string_of_uint d) = Some (Z.of_N (Pos.of_uint d), None).
Proof.
  induction d; cbn [NilEmpty.string_of_uint Pos.of_uint];
    [reflexivity|..];
    unfold readWhole; fold readWhole;
    match goal with |- context [Ascii.eqb ?c ?d] => change (Ascii.eqb c d) with false end;
    match goal with |- context [digitValue ?c] =>
      let v := eval vm_compute in (digitValue c) in change (digitValue c) with v end;
    cbv beta iota; cbn [Z.mul Z.add];
    first [exact IHd | apply readWhole_pos].
Qed.

Lemma toString_nonnil n : N.to_uint n <> Decimal.Nil.
Proof.
  rewrite <- (DecimalN.Unsigned.of_to n) at 1. rewrite DecimalN.Unsigned.to_of.
  apply DecimalFacts.unorm_nonnil.
Qed.

(** [parseUnits(n.toString(), decimals)] is n times 10^decimals. *)
Lemma parseUnits_toString n decimals :
  parseUnits (toString n) decimals = Ok (Z.of_N n * 10 ^ Z.of_nat decimals).
Proof.
  pose proof (readWhole_zero (N.to_uint n)) as R.
  pose proof (toString_nonnil n) as NN.
  change (Pos.of_uint (N.to_uint n)) with (N.of_uint (N.to_uint n)) in R.
  rewrite DecimalN.Unsigned.of_to in R.
  unfold parseUnits, toString in *.
  destruct (N.to_uint n) as [|d|d|d|d|d|d|d|d|d|d]; [contradiction|..];
    cbn [NilEmpty.string_of_uint] in *;
    destruct (NilEmpty.string_of_uint d); rewrite R; reflexivity.
Qed.

Lemma randomAmount_run env w :
  randomAmount env w
  = (Ok (Z.of_N (tokensDrawn (randomAt env (draws w) mod randomDenominator)) * 10 ^ 18),
     {| clock := clock w; draws := S (draws w); trace := trace w |}).
Proof.
  unfold randomAmount. rewrite run_bind. cbn [mathRandom]. unfold liftRes.
  rewrite parseUnits_toString. reflexivity.
Qed.

(** ** Rules for [Returns] *)

Lemma Returns_ret {A} (a : A) : Returns (ret a).
Proof. intros w. exists a. reflexivity. Qed.

Lemma Returns_bind {A B} (m : M A) (k : A -> M B) :
  Returns m -> (forall a, Returns (k a)) -> Returns (bind m k).
Proof.
  intros Hm Hk w. destruct (Hm w) as (a & Ha).
  unfold result, bind in *. destruct (m w) as [r w1]; simpl in Ha; subst r.
  apply Hk.
Qed.

Lemma Returns_handled {A} (body : M A) (handler : string -> M A) :
  (forall e, Returns (handler e)) -> Returns (tryCatch body handler).
Proof.
  intros Hk w. unfold result, tryCatch.
  destruct (body w) as [[a|e] w1]; simpl.
  - exists a. reflexivity.
  - apply Hk.
Qed.

Lemma Returns_log m : Returns (log m).
Proof. intros w. exists tt. reflexivity. Qed.

Lemma Returns_forOf {A} (xs : list A) (body : A -> M unit) :
  (forall x, Returns (body x)) -> Returns (forOf xs body).
Proof.
  intros H. induction xs as [|x xs IH]; simpl.
  - apply Returns_ret.
  - apply Returns_bind; [apply H | intros _; exact IH].
Qed.

Lemma Returns_forIndex {A} (xs : list A) (body : nat -> A -> M unit) i :
  (forall j x, Returns (body j x)) -> Returns (forIndex i xs body).
Proof.
  intros H. revert i. induction xs as [|x xs IH]; intros i; simpl.
  - apply Returns_ret.
  - apply Returns_bind; [apply H | intros _; apply IH].
Qed.

Lemma Returns_unit (m : M unit) w : Returns m -> result m w = Ok tt.
Proof. intros H. destruct (H w) as ([] & E). exact E. Qed.

Section Totality.

Variable env : Env.

Lemma Returns_mathRandom : Returns (mathRandom env).
Proof. intros w. eexists. reflexivity. Qed.

Lemma Returns_wait ms : Returns (wait env ms).
Proof. intros w. exists tt. reflexivity. Qed.

Lemma Returns_sortInsert {A} (x : A) sorted : Returns (sortInsert env x sorted).
Proof.
  induction sorted as [|y rest IH]; simpl.
  - apply Returns_ret.
  - apply Returns_bind.
    + unfold randomComparator. apply Returns_bind; [apply Returns_mathRandom|].
      intros. apply Returns_ret.
    + intros c. destruct (c <? 0); [apply Returns_ret|].
      apply Returns_bind; [exact IH | intros; apply Returns_ret].
Qed.

Lemma Returns_sort {A} (xs : list A) : Returns (sort env xs).
Proof.
  induction xs as [|x rest IH]; simpl.
  - apply Returns_ret.
  - apply Returns_bind; [exact IH | intros; apply Returns_sortInsert].
Qed.

Lemma Returns_sample size : Returns (sample env size).
Proof.
  unfold sample. apply Returns_bind; [apply Returns_sort | intros; apply Returns_ret].
Qed.

Lemma Returns_sendTo contract to : Returns (sendTo env contract to).
Proof.
  unfold sendTo. apply Returns_bind.
  - intros w. eexists. unfold result. rewrite randomAmount_run. reflexivity.
  - intros amount. apply Returns_handled. intros. apply Returns_log.
Qed.

Lemma Returns_sendToRandomAddresses contract :
  Returns (sendToRandomAddresses env contract).
Proof.
  unfold sendToRandomAddresses. apply Returns_bind; [apply Returns_sample|].
  intros targets. apply Returns_forOf. intros. apply Returns_sendTo.
Qed.

Lemma Returns_attempt wallet i spec : Returns (attempt env wallet i spec).
Proof. unfold attempt. apply Returns_handled. intros. apply Returns_log. Qed.

Lemma Returns_slot wallet i spec : Returns (slot env wallet i spec).
Proof.
  unfold slot. apply Returns_bind; [apply Returns_attempt|].
  intros. apply Returns_wait.
Qed.

End Totality.

(** ** One deployment *)

Lemma parseUnits_supply : parseUnits "1000" 18 = Ok (1000 * 10 ^ 18).
Proof. reflexivity. Qed.

Lemma parseEther_minimum : parseEther "0.000001" = Ok minimumBalance.
Proof. reflexivity. Qed.

Lemma calls_emit kind e w :
  calls kind (emit e w) = if kind e then S (calls kind w) else calls kind w.
Proof.
  unfold calls, emit; simpl. rewrite filter_app, length_app; simpl.
  destruct (kind e); simpl; lia.
Qed.

Section Deployment.

Variable env : Env.

(** Every call of [deployToken] starts with a compilation, and what
    follows is made of the deployment's own actions. *)
Lemma deployToken_trace wallet nm sym w :
  exists d,
    trace (after (deployToken env wallet nm sym) w)
      = trace w ++ EvCompile (tokenSource env) :: d /\
    Forall (fun e => inDeployment e = true) d /\
    clock w <= clock (after (deployToken env wallet nm sym) w).
Proof.
  unfold deployToken, after. unfold bind at 1. unfold compileContract.
  destruct (solc env (tokenSource env)) as [art|message].
  - match goal with |- context [snd (?m ?w0)] =>
      assert (H : Emits inDeployment m) by emits;
      destruct (H w0) as (d & E & F & C)
    end.
    unfold after in *. exists d. repeat split; trivial.
    rewrite E. unfold emit; cbn [trace]. rewrite <- app_assoc. reflexivity.
  - exists []. cbn [snd]. unfold emit; cbn [trace clock].
    split; [reflexivity | split; [apply Forall_nil | ]].
    unfold bind. cbn [snd clock]. lia.
Qed.

End Deployment.

(** ** Running a composed computation *)

Lemma run_tryCatch {A} (body : M A) (handler : string -> M A) w :
  tryCatch body handler w = match body w with
                            | (Ok a, w1) => (Ok a, w1)
                            | (Throw e, w1) => handler e w1
                            end.
Proof. reflexivity. Qed.

Lemma run_Returns (m : M unit) w : Returns m -> m w = (Ok tt, after m w).
Proof.
  intros H. pose proof (Returns_unit m w H) as E.
  unfold result, after in *. destruct (m w) as [r w1]; simpl in *. now subst.
Qed.

Lemma pacedAttempts_add source n k :
  pacedAttempts source (n + k) = pacedAttempts source n ++ pacedAttempts source k.
Proof. unfold pacedAttempts. rewrite repeat_app, concat_app. reflexivity. Qed.

Lemma inDistribution_inAttempt e : inDistribution e = true -> inAttempt e = true.
Proof. destruct e as [| | | | | | | |t []| | |]; simpl; intros; trivial; apply orb_true_r. Qed.

Lemma inDeployment_inAttempt e : inDeployment e = true -> inAttempt e = true.
Proof. destruct e as [| | | | | | | |t []| | |]; simpl; intros H; trivial; discriminate. Qed.

Lemma inAttempt_inCycle e : inAttempt e = true -> inCycle e = true.
Proof. destruct e as [| | | | | | | |t []| | |]; simpl; intros H; trivial; discriminate. Qed.

Lemma inAttempt_quiet e : inAttempt e = true -> isAttemptOrPacing e = false.
Proof. destruct e as [| | | | | | | |t []| | |]; simpl; intros H; trivial; discriminate. Qed.

Lemma inAttempt_names e : inAttempt e = true -> isGenerateNames e = false.
Proof. destruct e as [| | | | | | | |t []| | |]; simpl; intros H; trivial; discriminate. Qed.

Section Cycle.

Variable env : Env.

(** One attempt: a compilation, then actions of the attempt; it never
    throws. *)
Lemma attempt_trace wallet i spec w :
  exists d,
    trace (after (attempt env wallet i spec) w) = trace w ++ EvCompile (tokenSource env) :: d /\
    Forall (fun e => inAttempt e = true) d /\
    clock w <= clock (after (attempt env wallet i spec) w).
Proof.
  destruct (deployToken_trace env wallet (name spec) (symbol spec) w) as (d & E & F & C).
  unfold after, attempt in *. rewrite run_tryCatch, run_bind.
  destruct (deployToken env wallet (name spec) (symbol spec) w) as [[c|e] w1];
    cbn [snd] in *.
  - match goal with |- context [match ?m w1 with _ => _ end] =>
      assert (H : Emits inAttempt m)
        by (emits; eapply Emits_weaken;
            [exact inDistribution_inAttempt | apply Emits_sendToRandomAddresses]);
      destruct (H w1) as (d' & E' & F' & C'); unfold after in *;
      destruct (m w1) as [[a|e] w2]; cbn [snd] in *
    end.
    + exists (d ++ d'). rewrite E', E, <- app_assoc. repeat split; [|lia].
      apply Forall_app. split; [|exact F'].
      eapply Forall_impl; [|exact F]. exact inDeployment_inAttempt.
    + exists (d ++ d' ++ [EvLog (clock w2) (LSlotFailed (name spec) e)]).
      unfold log, emit; cbn [snd trace clock]. rewrite E', E, <- !app_assoc.
      repeat split; [|lia].
      apply Forall_app. split.
      * eapply Forall_impl; [|exact F]. exact inDeployment_inAttempt.
      * apply Forall_app. split; [exact F'|]. repeat constructor.
  - exists (d ++ [EvLog (clock w1) (LSlotFailed (name spec) e)]).
    unfold log, emit; cbn [snd trace clock]. rewrite E, <- !app_assoc.
    repeat split; [|lia].
    apply Forall_app. split.
    + eapply Forall_impl; [|exact F]. exact inDeployment_inAttempt.
    + repeat constructor.
Qed.

(** One slot: the attempt, then the 3000 ms delay. *)
Lemma slot_trace wallet i spec w :
  exists d,
    result (slot env wallet i spec) w = Ok tt /\
    trace (after (slot env wallet i spec) w)
      = trace w ++ EvCompile (tokenSource env) :: d ++ [EvWait 3000] /\
    Forall (fun e => inAttempt e = true) d /\
    clock w + 3000 <= clock (after (slot env wallet i spec) w).
Proof.
  destruct (attempt_trace wallet i spec w) as (d & E & F & C).
  exists d. split; [apply Returns_unit, Returns_slot|].
  unfold after, slot in *. rewrite run_bind.
  rewrite (run_Returns _ w (Returns_attempt env wallet i spec)).
  unfold after. cbn [snd wait await advance emit trace clock].
  rewrite E, <- app_assoc. repeat split; trivial. lia.
Qed.

Lemma slot_filter d :
  Forall (fun e => inAttempt e = true) d ->
  filter isAttemptOrPacing (EvCompile (tokenSource env) :: d ++ [EvWait 3000])
    = [EvCompile (tokenSource env); EvWait 3000].
Proof.
  intros F. cbn [filter isAttemptOrPacing isCompile orb].
  rewrite filter_app, (filter_none _ _ d F inAttempt_quiet). reflexivity.
Qed.

(** The loop over the names of one wallet. *)
Lemma batch_trace wallet names : forall i w,
  exists d,
    result (forIndex i names (slot env wallet)) w = Ok tt /\
    trace (after (forIndex i names (slot env wallet)) w) = trace w ++ d /\
    Forall (fun e => inCycle e = true) d /\
    filter isAttemptOrPacing d = pacedAttempts (tokenSource env) (List.length names) /\
    filter isGenerateNames d = [] /\
    clock w <= clock (after (forIndex i names (slot env wallet)) w).
Proof.
  induction names as [|spec names IH]; intros i w.
  - exists []. unfold after, result; cbn. rewrite app_nil_r. repeat split; trivial. lia.
  - destruct (slot_trace wallet i spec w) as (d & R & E & F & C).
    unfold after, result in *. cbn [forIndex]. rewrite run_bind.
    destruct (slot env wallet i spec w) as [r w1]. cbn [fst snd] in *. subst r.
    destruct (IH (S i) w1) as (d' & R' & E' & F' & P' & G' & C').
    exists ((EvCompile (tokenSource env) :: d ++ [EvWait 3000]) ++ d').
    split; [exact R'|].
    rewrite E', E, <- !app_assoc.
    split; [reflexivity|]. split; [|split; [|split]].
    + apply Forall_app. split; [|exact F'].
      constructor; [reflexivity|]. apply Forall_app. split.
      * eapply Forall_impl; [|exact F]. exact inAttempt_inCycle.
      * repeat constructor.
    + rewrite filter_app, P', slot_filter by exact F. reflexivity.
    + rewrite filter_app, G', app_nil_r. cbn [filter isGenerateNames].
      rewrite filter_app, (filter_none _ _ d F inAttempt_names). reflexivity.
    + lia.
Qed.

(** One wallet: the batch is generated, then its slots run.  A throw of
    the name generator is not caught here. *)
Lemma walletBatch_run wallet w :
  walletBatch env wallet w
  = let w1 := emit (EvGenerateNames 5)
                (emit (EvLog (clock w) (LUsingWallet (address wallet))) w) in
    match nameReply env (calls isGenerateNames w) with
    | Ok names =>
        forIndex 0 names (slot env wallet)
          (emit (EvLog (clock w) (LGenerated (map name names))) w1)
    | Throw e => (Throw e, w1)
    end.
Proof.
  unfold walletBatch. rewrite run_bind. cbn [log]. rewrite run_bind.
  unfold generateUniqueNames. rewrite calls_emit. cbn [isGenerateNames].
  destruct (nameReply env (calls isGenerateNames w)); reflexivity.
Qed.

Lemma walletBatch_trace wallet w :
  exists d n,
    trace (after (walletBatch env wallet) w) = trace w ++ d /\
    Forall (fun e => inCycle e = true) d /\
    filter isAttemptOrPacing d = pacedAttempts (tokenSource env) n /\
    filter isGenerateNames d = [EvGenerateNames 5] /\
    clock w <= clock (after (walletBatch env wallet) w) /\
    match nameReply env (calls isGenerateNames w) with
    | Ok names => result (walletBatch env wallet) w = Ok tt /\ n = List.length names
    | Throw e => result (walletBatch env wallet) w = Throw e /\ n = O
    end.
Proof.
  unfold after, result. rewrite walletBatch_run. cbv zeta.
  destruct (nameReply env (calls isGenerateNames w)) as [names|e].
  - match goal with |- context [forIndex 0 names _ ?w0] =>
      destruct (batch_trace wallet names 0%nat w0) as (d & R & E & F & P & G & C)
    end.
    unfold after, result in *.
    match goal with |- context [forIndex 0 names ?b ?w0] =>
      destruct (forIndex 0 names b w0) as [r w1] end.
    cbn [fst snd] in *. subst r.
    exists ([EvLog (clock w) (LUsingWallet (address wallet)); EvGenerateNames 5;
             EvLog (clock w) (LGenerated (map name names))] ++ d), (List.length names).
    rewrite E. unfold emit; unfold emit in C; cbn [trace clock] in *.
    rewrite <- !app_assoc.
    split; [reflexivity|]. split; [|split; [|split; [|split]]].
    + apply Forall_app. split; [repeat constructor | exact F].
    + rewrite filter_app, P. reflexivity.
    + rewrite filter_app, G. reflexivity.
    + exact C.
    + split; reflexivity.
  - exists [EvLog (clock w) (LUsingWallet (address wallet)); EvGenerateNames 5], O.
    unfold emit; cbn [fst snd trace clock]. rewrite <- !app_assoc.
    split; [reflexivity|]. split; [repeat constructor|].
    repeat split. lia.
Qed.

(** The loop over the wallets. *)
Lemma wallets_trace ws : forall w,
  exists d n,
    trace (after (forOf ws (walletBatch env)) w) = trace w ++ d /\
    Forall (fun e => inCycle e = true) d /\
    filter isAttemptOrPacing d = pacedAttempts (tokenSource env) n /\
    clock w <= clock (after (forOf ws (walletBatch env)) w).
Proof.
  induction ws as [|wallet ws IH]; intros w.
  - exists [], O. unfold after; cbn. rewrite app_nil_r. repeat split; trivial. lia.
  - destruct (walletBatch_trace wallet w) as (d & n & E & F & P & _ & C & _).
    unfold after in *. cbn [forOf]. rewrite run_bind.
    destruct (walletBatch env wallet w) as [[[]|e] w1]; cbn [snd] in *.
    + destruct (IH w1) as (d' & n' & E' & F' & P' & C').
      exists (d ++ d'), (n + n')%nat. rewrite E', E, <- app_assoc.
      split; [reflexivity|]. split; [|split].
      * apply Forall_app. split; assumption.
      * rewrite filter_app, P, P', pacedAttempts_add. reflexivity.
      * lia.
    + exists d, n. repeat split; assumption.
Qed.

(** While the name generator answers, the loop over the wallets runs every
    slot of every batch and returns. *)
Lemma wallets_ok ws : forall w,
  (forall j, (j < List.length ws)%nat ->
     exists names, nameReply env (calls isGenerateNames w + j) = Ok names) ->
  exists d,
    result (forOf ws (walletBatch env)) w = Ok tt /\
    trace (after (forOf ws (walletBatch env)) w) = trace w ++ d /\
    filter isAttemptOrPacing d
      = pacedAttempts (tokenSource env)
          (batchSizes env (calls isGenerateNames w) (List.length ws)) /\
    calls isGenerateNames (after (forOf ws (walletBatch env)) w)
      = (calls isGenerateNames w + List.length ws)%nat.
Proof.
  induction ws as [|wallet ws IH]; intros w H.
  - exists []. unfold after, result; cbn. rewrite app_nil_r, Nat.add_0_r. repeat split.
  - destruct (walletBatch_trace wallet w) as (d & n & E & F & P & G & C & R).
    destruct (H O) as (names & N); [cbn; lia|]. rewrite Nat.add_0_r in N.
    rewrite N in R. destruct R as (R & ->).
    pose proof (calls_extension isGenerateNames _ _ _ E) as K. rewrite G in K.
    unfold after, result in *. cbn [forOf]. rewrite run_bind.
    destruct (walletBatch env wallet w) as [r w1]; cbn [fst snd] in *. subst r.
    destruct (IH w1) as (d' & R' & E' & P' & K').
    { intros j Hj. rewrite K. cbn [List.length].
      replace (calls isGenerateNames w + 1 + j)%nat
        with (calls isGenerateNames w + S j)%nat by lia.
      apply H. cbn. lia. }
    exists (d ++ d'). rewrite E', E, <- app_assoc.
    split; [exact R'|]. split; [reflexivity|]. split.
    + rewrite filter_app, P, P', K. cbn [batchSizes List.length]. rewrite N.
      rewrite <- pacedAttempts_add.
      replace (calls isGenerateNames w + 1)%nat with (S (calls isGenerateNames w)) by lia.
      reflexivity.
    + rewrite K', K. cbn [List.length]. lia.
Qed.

(** The first batch that the name generator refuses ends the loop over the
    wallets with that throw: no later batch is asked for. *)
Lemma wallets_throw ws : forall w k e,
  (k < List.length ws)%nat ->
  (forall j, (j < k)%nat ->
     exists names, nameReply env (calls isGenerateNames w + j) = Ok names) ->
  nameReply env (calls isGenerateNames w + k) = Throw e ->
  result (forOf ws (walletBatch env)) w = Throw e /\
  calls isGenerateNames (after (forOf ws (walletBatch env)) w)
    = (calls isGenerateNames w + k + 1)%nat.
Proof.
  induction ws as [|wallet ws IH]; intros w k e Hk H T.
  - cbn in Hk. lia.
  - destruct (walletBatch_trace wallet w) as (d & n & E & F & P & G & C & R).
    pose proof (calls_extension isGenerateNames _ _ _ E) as K. rewrite G in K.
    unfold after, result in *. cbn [forOf]. rewrite run_bind.
    destruct k as [|k].
    + rewrite Nat.add_0_r in T. rewrite T in R. destruct R as (R & _).
      destruct (walletBatch env wallet w) as [r w1]; cbn [fst snd] in *. subst r.
      cbn [fst snd]. split; [reflexivity|]. rewrite K. cbn [List.length]. lia.
    + destruct (H O) as (names & N); [lia|]. rewrite Nat.add_0_r in N.
      rewrite N in R. destruct R as (R & _).
      destruct (walletBatch env wallet w) as [r w1]; cbn [fst snd] in *. subst r.
      destruct (IH w1 k e) as (R' & K').
      * cbn in Hk. lia.
      * intros j Hj. rewrite K. cbn [List.length].
        replace (calls isGenerateNames w + 1 + j)%nat
          with (calls isGenerateNames w + S j)%nat by lia.
        apply H. lia.
      * rewrite K. cbn [List.length].
        replace (calls isGenerateNames w + 1 + k)%nat
          with (calls isGenerateNames w + S k)%nat by lia.
        exact T.
      * split; [exact R'|]. rewrite K', K. cbn [List.length]. lia.
Qed.

End Cycle.

(** ** The wait for the next cycle *)

Lemma inCountdown_names e : inCountdown e = true -> isGenerateNames e = false.
Proof. destruct e as [| | | | | | | |t []|[]| |]; simpl; intros H; trivial; discriminate. Qed.

Lemma inCountdown_start e : inCountdown e = true -> cycleStart e = [].
Proof. destruct e as [| | | | | | | |t []|[]| |]; simpl; intros H; trivial; discriminate. Qed.

Lemma inCountdown_quiet e : inCountdown e = true -> isAttemptOrPacing e = false.
Proof.
  destruct e as [| | | | | | | |t []|[]|ms|]; simpl; intros H; trivial; try discriminate.
  destruct ms as [|p|p]; try discriminate.
  destruct (Pos.eq_dec p 1000) as [->|N]; [reflexivity|].
  exfalso. revert H. clear -N.
  repeat (destruct p as [p|p|]; try discriminate; try (intros _; apply N; reflexivity)).
Qed.

Lemma inCycle_start e : inCycle e = true -> cycleStart e = [].
Proof.
  destruct e as [| | | | | | | |t []| |ms|]; simpl; intros H; trivial; discriminate.
Qed.

Section Waiting.

Variable env : Env.

Lemma secondReading_bounds w :
  clock w <= secondReading env w
          <= clock w + Z.of_N (lagAt env (S (List.length (trace w)))).
Proof. unfold secondReading. cbv zeta. lia. Qed.

(** The world after one turn of the loop. *)
Lemma turn_world nextRun w :
  let w1 := after (wait env 1000)
              (emit (EvStatus (Some (nextRun - secondReading env w))) w) in
  trace w1 = trace w ++ [EvStatus (Some (nextRun - secondReading env w)); EvWait 1000] /\
  clock w1 = clock w + 1000 + Z.of_N (lagAt env (S (List.length (trace w)))).
Proof.
  cbv zeta. unfold after, wait, await, advance, emit; cbn [snd trace clock].
  rewrite <- app_assoc, length_app, Nat.add_1_r. split; [reflexivity | lia].
Qed.

Lemma countdownLoop_run ticks nextRun w :
  countdownLoop env (S ticks) nextRun w
  = if clock w <? nextRun
    then countdownLoop env ticks nextRun
           (after (wait env 1000)
              (emit (EvStatus (Some (nextRun - secondReading env w))) w))
    else (Ok tt, w).
Proof.
  cbn [countdownLoop]. rewrite run_bind. cbn [newDate].
  destruct (clock w <? nextRun); reflexivity.
Qed.

(** The countdown shows, at every turn, a remaining time at least one
    second below the one before, and goes on until the clock has reached
    [nextRun] as long as it has turns left. *)
Lemma countdownLoop_trace nextRun ticks : forall w,
  exists d,
    result (countdownLoop env ticks nextRun) w = Ok tt /\
    trace (after (countdownLoop env ticks nextRun) w) = trace w ++ d /\
    Forall (fun e => inCountdown e = true) d /\
    descending (countdownShown d) /\
    Forall (fun r => r <= nextRun - clock w) (countdownShown d) /\
    clock w <= clock (after (countdownLoop env ticks nextRun) w) /\
    (nextRun - clock w <= 1000 * Z.of_nat ticks ->
     nextRun <= clock (after (countdownLoop env ticks nextRun) w)).
Proof.
  induction ticks as [|ticks IH]; intros w.
  - exists []. unfold result, after; cbn [countdownLoop ret fst snd].
    rewrite app_nil_r. repeat split; trivial; try constructor; lia.
  - unfold result, after. rewrite countdownLoop_run.
    destruct (clock w <? nextRun) eqn:T.
    + apply Z.ltb_lt in T.
      destruct (turn_world nextRun w) as (E1 & C1).
      pose proof (secondReading_bounds w) as B0.
      set (w1 := after (wait env 1000) _) in *.
      destruct (IH w1) as (d & R & E & F & K & B & C & L).
      unfold result, after in *.
      exists ([EvStatus (Some (nextRun - secondReading env w)); EvWait 1000] ++ d).
      rewrite E, E1, <- app_assoc.
      split; [exact R|]. split; [reflexivity|]. split; [|split; [|split; [|split]]].
      * apply Forall_app. split; [repeat constructor | exact F].
      * cbn [app countdownShown flat_map remainingShown].
        fold (countdownShown d).
        destruct (countdownShown d) as [|b later] eqn:S; cbn [descending app].
        -- exact I.
        -- inversion B; subst. split; [lia | exact K].
      * cbn [app countdownShown flat_map remainingShown]. fold (countdownShown d).
        constructor; [lia|]. eapply Forall_impl; [|exact B].
        cbv beta. intros. lia.
      * lia.
      * intros H. apply L. lia.
    + apply Z.ltb_ge in T.
      exists []. cbn [fst snd]. rewrite app_nil_r.
      repeat split; trivial; try constructor; lia.
Qed.

(** What a wait performs is a sequence of turns, a display followed by a
    wait of one second, and no value shown is below minus the latency. *)
Lemma countdownLoop_turns (latency : N) nextRun ticks :
  (forall k, (lagAt env k <= latency)%N) ->
  forall w,
    exists shown,
      trace (after (countdownLoop env ticks nextRun) w)
        = trace w ++ countdownTurns shown /\
      Forall (fun r => - Z.of_N latency < r) shown.
Proof.
  intros L. induction ticks as [|ticks IH]; intros w.
  - exists []. unfold after; cbn. rewrite app_nil_r. split; [reflexivity | constructor].
  - unfold after. rewrite countdownLoop_run.
    destruct (clock w <? nextRun) eqn:T.
    + apply Z.ltb_lt in T.
      destruct (turn_world nextRun w) as (E1 & C1).
      pose proof (secondReading_bounds w) as B0.
      specialize (L (S (List.length (trace w)))).
      set (w1 := after (wait env 1000) _) in *.
      destruct (IH w1) as (shown & E & P). unfold after in E.
      exists ((nextRun - secondReading env w) :: shown).
      rewrite E, E1, <- app_assoc. split; [reflexivity|].
      constructor; [lia | exact P].
    + exists []. cbn [snd countdownTurns flat_map]. rewrite app_nil_r.
      split; [reflexivity | constructor].
Qed.

Lemma countdownTicks_enough nextRun w :
  nextRun - clock w <= 1000 * Z.of_nat (countdownTicks nextRun w).
Proof.
  unfold countdownTicks.
  destruct (Z.le_gt_cases 0 (nextRun - clock w)) as [P|N].
  - pose proof (Z.div_pos (nextRun - clock w) 1000 P ltac:(lia)) as Q.
    rewrite Z2Nat.id by lia.
    pose proof (Z.mod_pos_bound (nextRun - clock w) 1000 ltac:(lia)) as B.
    pose proof (Z.div_mod (nextRun - clock w) 1000 ltac:(lia)) as D. lia.
  - lia.
Qed.

(** [countdown] ends by its test: it returns, and not before [nextRun]. *)
Lemma countdown_trace nextRun w :
  exists d,
    result (countdown env nextRun) w = Ok tt /\
    trace (after (countdown env nextRun) w) = trace w ++ d /\
    Forall (fun e => inCountdown e = true) d /\
    descending (countdownShown d) /\
    clock w <= clock (after (countdown env nextRun) w) /\
    nextRun <= clock (after (countdown env nextRun) w).
Proof.
  destruct (countdownLoop_trace nextRun (countdownTicks nextRun w) w)
    as (d & R & E & F & K & _ & C & L).
  exists d. unfold result, after, countdown in *.
  repeat split; trivial. apply L, countdownTicks_enough.
Qed.

End Waiting.

(** ** The endless loop *)

Lemma spaced_cons a starts :
  spaced starts -> Forall (fun s => a + dayMs <= s) starts -> spaced (a :: starts).
Proof.
  intros S F. destruct starts as [|b later]; cbn [spaced]; trivial.
  inversion F; subst. split; assumption.
Qed.

Lemma cycleStarts_app d d' : cycleStarts (d ++ d') = cycleStarts d ++ cycleStarts d'.
Proof. apply flat_map_app. Qed.

Lemma cycleStarts_none (p : Event -> bool) d :
  Forall (fun e => p e = true) d ->
  (forall e, p e = true -> cycleStart e = []) ->
  cycleStarts d = [].
Proof. apply flat_map_none. Qed.

Section Loop.

Variable env : Env.

Lemma cycle_run w :
  cycle env w
  = match forOf (wallets env) (walletBatch env)
            (emit (EvLog (clock w) (LCycle (clock w))) w) with
    | (Ok _, w1) => countdown env (clock w + dayMs) w1
    | (Throw e, w1) => (Throw e, w1)
    end.
Proof.
  unfold cycle. rewrite run_bind. cbn [newDate]. rewrite run_bind. cbn [log].
  rewrite run_bind. reflexivity.
Qed.

(** One turn of the loop: the start is logged, the wallets are served and,
    unless the name generator threw, the clock is 24 hours past the start
    when the turn ends. *)
Lemma cycle_trace w :
  exists d n,
    trace (after (cycle env) w) = trace w ++ EvLog (clock w) (LCycle (clock w)) :: d /\
    cycleStarts d = [] /\
    filter isAttemptOrPacing d = pacedAttempts (tokenSource env) n /\
    clock w <= clock (after (cycle env) w) /\
    (forall u, result (cycle env) w = Ok u -> clock w + dayMs <= clock (after (cycle env) w)).
Proof.
  unfold after, result. rewrite cycle_run.
  set (w0 := emit (EvLog (clock w) (LCycle (clock w))) w).
  destruct (wallets_trace env (wallets env) w0) as (d & n & E & F & P & C).
  unfold after in *.
  destruct (forOf (wallets env) (walletBatch env) w0) as [[[]|e] w1]; cbn [snd] in *.
  - destruct (countdown_trace env (clock w + dayMs) w1) as (d' & R' & E' & F' & K' & C' & L').
    unfold after, result in *.
    exists (d ++ d'), n. rewrite E', E. unfold w0, emit; cbn [trace].
    rewrite <- !app_assoc. split; [reflexivity|]. split; [|split; [|split]].
    + rewrite cycleStarts_app, (cycleStarts_none _ d F inCycle_start),
        (cycleStarts_none _ d' F' inCountdown_start). reflexivity.
    + rewrite filter_app, P, (filter_none _ _ d' F' inCountdown_quiet), app_nil_r.
      reflexivity.
    + unfold w0, emit in C; cbn [clock] in C. lia.
    + intros _ _. exact L'.
  - exists d, n. rewrite E. unfold w0, emit; cbn [trace fst].
    rewrite <- !app_assoc. split; [reflexivity|]. split; [|split; [|split]].
    + apply (cycleStarts_none _ d F inCycle_start).
    + exact P.
    + unfold w0, emit in C; cbn [clock] in C. lia.
    + intros u H. discriminate.
Qed.

(** A turn in which the name generator answers for every wallet. *)
Lemma cycle_ok w :
  (forall j, (j < List.length (wallets env))%nat ->
     exists names, nameReply env (calls isGenerateNames w + j) = Ok names) ->
  result (cycle env) w = Ok tt /\
  calls isGenerateNames (after (cycle env) w)
    = (calls isGenerateNames w + List.length (wallets env))%nat /\
  filter isAttemptOrPacing (since w (after (cycle env) w))
    = pacedAttempts (tokenSource env)
        (batchSizes env (calls isGenerateNames w) (List.length (wallets env))).
Proof.
  intros H. unfold after, result. rewrite cycle_run.
  set (w0 := emit (EvLog (clock w) (LCycle (clock w))) w).
  assert (K0 : calls isGenerateNames w0 = calls isGenerateNames w)
    by (unfold w0; rewrite calls_emit; reflexivity).
  destruct (wallets_ok env (wallets env) w0) as (d & R & E & P & K).
  { intros j Hj. rewrite K0. apply H, Hj. }
  unfold after, result in *.
  destruct (forOf (wallets env) (walletBatch env) w0) as [r w1]; cbn [fst snd] in *.
  subst r.
  destruct (countdown_trace env (clock w + dayMs) w1) as (d' & R' & E' & F' & K' & C' & L').
  unfold after, result in *.
  split; [exact R'|]. split.
  - rewrite (calls_extension _ _ _ _ E'), (filter_none _ _ d' F' inCountdown_names).
    rewrite K, K0. cbn [List.length]. lia.
  - rewrite (since_extension w _ (EvLog (clock w) (LCycle (clock w)) :: d ++ d')).
    + cbn [filter isAttemptOrPacing isCompile isPacing orb].
      rewrite filter_app, P, (filter_none _ _ d' F' inCountdown_quiet), app_nil_r, K0.
      reflexivity.
    + rewrite E', E. unfold w0, emit; cbn [trace]. rewrite <- !app_assoc. reflexivity.
Qed.

(** A turn in which the name generator throws for the wallet of index [k]. *)
Lemma cycle_throw w k e :
  (k < List.length (wallets env))%nat ->
  (forall j, (j < k)%nat ->
     exists names, nameReply env (calls isGenerateNames w + j) = Ok names) ->
  nameReply env (calls isGenerateNames w + k) = Throw e ->
  result (cycle env) w = Throw e /\
  calls isGenerateNames (after (cycle env) w) = (calls isGenerateNames w + k + 1)%nat.
Proof.
  intros Hk H T. unfold after, result. rewrite cycle_run.
  set (w0 := emit (EvLog (clock w) (LCycle (clock w))) w).
  assert (K0 : calls isGenerateNames w0 = calls isGenerateNames w)
    by (unfold w0; rewrite calls_emit; reflexivity).
  destruct (wallets_throw env (wallets env) w0 k e Hk) as (R & K).
  { intros j Hj. rewrite K0. apply H, Hj. }
  { rewrite K0. exact T. }
  unfold after, result in *.
  destruct (forOf (wallets env) (walletBatch env) w0) as [r w1]; cbn [fst snd] in *.
  subst r. cbn [fst snd]. split; [reflexivity|]. rewrite K, K0. reflexivity.
Qed.

(** The starts of the cycles of a run are at least 24 hours apart. *)
Lemma whileTrue_trace cycles : forall w,
  exists d n,
    trace (after (whileTrue env cycles) w) = trace w ++ d /\
    spaced (cycleStarts d) /\
    Forall (fun s => clock w <= s) (cycleStarts d) /\
    filter isAttemptOrPacing d = pacedAttempts (tokenSource env) n /\
    clock w <= clock (after (whileTrue env cycles) w).
Proof.
  induction cycles as [|cycles IH]; intros w.
  - exists [], O. unfold after; cbn. rewrite app_nil_r. repeat split; trivial. lia.
  - destruct (cycle_trace w) as (d & n & E & S & P & C & L).
    unfold after, result in *. cbn [whileTrue]. rewrite run_bind.
    destruct (cycle env w) as [[u|e] w1]; cbn [fst snd] in *.
    + destruct (IH w1) as (d' & n' & E' & S' & F' & P' & C').
      specialize (L u eq_refl).
      exists ((EvLog (clock w) (LCycle (clock w)) :: d) ++ d'), (n + n')%nat.
      rewrite E', E, <- app_assoc.
      split; [reflexivity|]. split; [|split; [|split]].
      * rewrite cycleStarts_app. cbn [cycleStarts flat_map cycleStart app].
        fold (cycleStarts d). rewrite S. cbn [app].
        apply spaced_cons; [exact S'|].
        eapply Forall_impl; [|exact F']. cbv beta. intros. lia.
      * rewrite cycleStarts_app. cbn [cycleStarts flat_map cycleStart app].
        fold (cycleStarts d). rewrite S. cbn [app].
        constructor; [lia|]. eapply Forall_impl; [|exact F']. cbv beta. intros. lia.
      * rewrite filter_app. cbn [filter isAttemptOrPacing isCompile isPacing orb].
        rewrite P, P', pacedAttempts_add. reflexivity.
      * lia.
    + exists (EvLog (clock w) (LCycle (clock w)) :: d), n.
      split; [exact E|]. split; [|split; [|split]].
      * cbn [cycleStarts flat_map cycleStart app]. fold (cycleStarts d). rewrite S.
        exact I.
      * cbn [cycleStarts flat_map cycleStart app]. fold (cycleStarts d). rewrite S.
        repeat constructor. lia.
      * cbn [filter isAttemptOrPacing isCompile isPacing orb]. exact P.
      * exact C.
Qed.

(** While the name generator answers, no turn throws and every turn is
    run. *)
Lemma whileTrue_ok cycles :
  (forall k, exists names, nameReply env k = Ok names) ->
  forall w,
    result (whileTrue env cycles) w = Ok tt /\
    List.length (cycleStarts (since w (after (whileTrue env cycles) w))) = cycles.
Proof.
  intros H. induction cycles as [|cycles IH]; intros w.
  - unfold after, result, since; cbn. rewrite skipn_all. split; reflexivity.
  - destruct (cycle_trace w) as (d & n & E & S & P & C & L).
    destruct (cycle_ok w) as (R & _); [intros; apply H|].
    unfold after, result in *. cbn [whileTrue]. rewrite run_bind.
    destruct (cycle env w) as [r w1]; cbn [fst snd] in *. subst r.
    destruct (IH w1) as (R' & N'). unfold after, result in *.
    split; [exact R'|].
    destruct (whileTrue_trace cycles w1) as (d' & n' & E' & _). unfold after in E'.
    rewrite (since_extension _ _ _ E') in N'.
    rewrite (since_extension w _ ((EvLog (clock w) (LCycle (clock w)) :: d) ++ d')).
    + rewrite cycleStarts_app, length_app. cbn [cycleStarts flat_map cycleStart app].
      fold (cycleStarts d). rewrite S, N'. reflexivity.
    + rewrite E', E, <- app_assoc. reflexivity.
Qed.

(** The first batch refused by the name generator, the [n]-th of the run,
    ends the loop with that throw, provided the run is long enough to ask
    for it. *)
Lemma whileTrue_throw cycles : forall w n e,
  (n < cycles * List.length (wallets env))%nat ->
  (forall j, (j < n)%nat ->
     exists names, nameReply env (calls isGenerateNames w + j) = Ok names) ->
  nameReply env (calls isGenerateNames w + n) = Throw e ->
  result (whileTrue env cycles) w = Throw e /\
  calls isGenerateNames (after (whileTrue env cycles) w)
    = (calls isGenerateNames w + n + 1)%nat.
Proof.
  induction cycles as [|cycles IH]; intros w n e Hn H T.
  - cbn in Hn. lia.
  - unfold after, result. cbn [whileTrue]. rewrite run_bind.
    destruct (Nat.lt_ge_cases n (List.length (wallets env))) as [Lt|Ge].
    + destruct (cycle_throw w n e Lt H T) as (R & K).
      unfold after, result in *.
      destruct (cycle env w) as [r w1]; cbn [fst snd] in *. subst r.
      cbn [fst snd]. split; [reflexivity | exact K].
    + destruct (cycle_ok w) as (R & K & _).
      { intros j Hj. apply H. lia. }
      unfold after, result in *.
      destruct (cycle env w) as [r w1]; cbn [fst snd] in *. subst r.
      destruct (IH w1 (n - List.length (wallets env))%nat e) as (R' & K').
      * cbn in Hn. lia.
      * intros j Hj. rewrite K.
        replace (calls isGenerateNames w + List.length (wallets env) + j)%nat
          with (calls isGenerateNames w + (List.length (wallets env) + j))%nat by lia.
        apply H. lia.
      * rewrite K.
        replace (calls isGenerateNames w + List.length (wallets env)
                 + (n - List.length (wallets env)))%nat
          with (calls isGenerateNames w + n)%nat by lia.
        exact T.
      * unfold after, result in *. split; [exact R'|]. rewrite K', K. lia.
Qed.

Lemma mainLoop_run cycles w :
  mainLoop env cycles w = whileTrue env cycles (emit (EvStatus None) w).
Proof. reflexivity. Qed.

End Loop.

(** ** The random sample *)

Lemma silent_nil d : Forall (fun e => silent e = true) d -> d = [].
Proof. intros F. destruct F as [|e d H _]; [reflexivity | discriminate]. Qed.

Lemma NoDup_firstn {A} n (l : list A) : NoDup l -> NoDup (firstn n l).
Proof.
  intros H. rewrite <- (firstn_skipn n l) in H.
  exact (NoDup_app_remove_r _ _ H).
Qed.

Lemma incl_firstn {A} n (l : list A) : incl (firstn n l) l.
Proof.
  intros x H. rewrite <- (firstn_skipn n l). apply in_or_app. left. exact H.
Qed.

Section Sampling.

Variable env : Env.

Lemma sortInsert_perm {A} (x : A) sorted : forall w,
  exists l, result (sortInsert env x sorted) w = Ok l /\ Permutation (x :: sorted) l.
Proof.
  induction sorted as [|y rest IH]; intros w.
  - exists [x]. split; reflexivity.
  - unfold result. cbn [sortInsert]. rewrite run_bind.
    unfold randomComparator. rewrite run_bind. cbn [mathRandom ret].
    destruct (_ <? 0).
    + exists (x :: y :: rest). split; reflexivity.
    + rewrite run_bind.
      match goal with |- context [sortInsert env x rest ?w0] =>
        destruct (IH w0) as (l & E & P); unfold result in E;
        destruct (sortInsert env x rest w0) as [r w2] end.
      cbn [fst] in E. subst r.
      exists (y :: l). split; [reflexivity|].
      rewrite perm_swap. apply perm_skip, P.
Qed.

(** Whatever the comparator answers, sorting rearranges the array. *)
Lemma sort_perm {A} (xs : list A) : forall w,
  exists l, result (sort env xs) w = Ok l /\ Permutation xs l.
Proof.
  induction xs as [|x rest IH]; intros w.
  - exists []. split; [reflexivity | constructor].
  - unfold result. cbn [sort]. rewrite run_bind.
    destruct (IH w) as (l & E & P). unfold result in E.
    destruct (sort env rest w) as [r w1]; cbn [fst] in E. subst r.
    destruct (sortInsert_perm x l w1) as (l' & E' & P'). unfold result in E'.
    exists l'. split; [exact E'|].
    rewrite <- P'. apply perm_skip, P.
Qed.

(** The sample: as many addresses as asked for if the pool has them, all
    from the pool, and distinct when the pool's are. *)
Lemma sample_spec size w :
  exists targets,
    result (sample env size) w = Ok targets /\
    trace (after (sample env size) w) = trace w /\
    clock (after (sample env size) w) = clock w /\
    List.length targets = Nat.min size (List.length (addresses env)) /\
    incl targets (addresses env) /\
    (NoDup (addresses env) -> NoDup targets).
Proof.
  destruct (sort_perm (addresses env) w) as (l & E & P).
  destruct (Emits_sort env silent (addresses env) w) as (d & T & F & C).
  assert (C' : clock (after (sort env (addresses env)) w) = clock w).
  { clear. generalize (addresses env). intros xs. revert w.
    assert (I : forall (x : string) sorted w, clock (after (sortInsert env x sorted) w) = clock w).
    { intros x sorted. induction sorted as [|y rest IH]; intros w; [reflexivity|].
      unfold after. cbn [sortInsert]. rewrite run_bind.
      unfold randomComparator. rewrite run_bind. cbn [mathRandom ret].
      destruct (_ <? 0); [reflexivity|]. rewrite run_bind.
      match goal with |- context [sortInsert env x rest ?w0] =>
        specialize (IH w0); unfold after in IH;
        destruct (sortInsert env x rest w0) as [[a|e] w2] end; exact IH. }
    induction xs as [|x rest IH]; intros w; [reflexivity|].
    unfold after. cbn [sort]. rewrite run_bind.
    specialize (IH w). unfold after in IH.
    destruct (sort env rest w) as [[a|e] w1]; cbn [snd] in *; [|exact IH].
    rewrite <- IH. apply I. }
  apply silent_nil in F. subst d. rewrite app_nil_r in T.
  unfold result, after, sample in *. rewrite run_bind.
  destruct (sort env (addresses env) w) as [r w1]; cbn [fst snd] in *. subst r.
  exists (slice 0 size l). cbn [ret fst snd]. unfold slice.
  rewrite Nat.sub_0_r. cbn [skipn].
  repeat split; trivial.
  - rewrite length_firstn, (Permutation_length P). reflexivity.
  - intros x H. apply (Permutation_in x (Permutation_sym P)).
    exact (incl_firstn size l x H).
  - intros N. apply NoDup_firstn. exact (Permutation_NoDup P N).
Qed.

(** One transfer: sent or failed, the failure is caught and logged. *)
Lemma sendTo_trace contract to w :
  exists d,
    result (sendTo env contract to) w = Ok tt /\
    trace (after (sendTo env contract to) w) = trace w ++ d /\
    Forall (fun e => inDistribution e = true) d /\
    recipients d = [to] /\
    flat_map sender d = [target contract] /\
    outcomes d = expectedOutcomes env [to] (calls isTransfer w) (calls isTxWait w) /\
    List.length (filter isTransfer d) = 1%nat /\
    List.length (filter isTxWait d)
      = match transferReply env (calls isTransfer w) with Ok _ => 1%nat | Throw _ => O end.
Proof.
  unfold result, after. destruct (sendTo env contract to w) as [res w'] eqn:Run.
  unfold sendTo in Run. rewrite run_bind, randomAmount_run in Run.
  set (amount := Z.of_N _ * 10 ^ 18) in Run.
  set (w0 := {| clock := clock w; draws := Datatypes.S (draws w); trace := trace w |}) in Run.
  rewrite run_tryCatch, run_bind in Run. unfold await at 1 in Run.
  change (calls isTransfer w0) with (calls isTransfer w) in Run.
  cbn [expectedOutcomes].
  destruct (transferReply env (calls isTransfer w)) as [[]|message].
  - rewrite run_bind in Run. unfold await in Run.
    change (calls isTxWait (advance ?ms ?w')) with (calls isTxWait w') in Run.
    rewrite calls_emit in Run. cbn [isTxWait] in Run.
    change (calls isTxWait w0) with (calls isTxWait w) in Run.
    destruct (receiptReply env (calls isTxWait w)) as [[]|message];
      cbn [log emit advance trace clock] in Run; injection Run as <- <-; subst w0; cbn [fst snd trace emit advance].
    + eexists [EvTransfer (target contract) to amount; EvTxWait (target contract) to;
               EvLog _ (LSent amount to)].
      rewrite <- !app_assoc. repeat split. repeat constructor.
    + eexists [EvTransfer (target contract) to amount; EvTxWait (target contract) to;
               EvLog _ (LSendError to message)].
      rewrite <- !app_assoc. repeat split. repeat constructor.
  - cbn [log emit advance trace clock] in Run; injection Run as <- <-; subst w0; cbn [fst snd trace emit advance].
    eexists [EvTransfer (target contract) to amount; EvLog _ (LSendError to message)].
    rewrite <- !app_assoc. repeat split. repeat constructor.
Qed.

(** The loop over the targets: every target is tried once, in order,
    whatever happened to the ones before. *)
Lemma targets_trace contract targets : forall w,
  exists d,
    result (forOf targets (sendTo env contract)) w = Ok tt /\
    trace (after (forOf targets (sendTo env contract)) w) = trace w ++ d /\
    Forall (fun e => inDistribution e = true) d /\
    recipients d = targets /\
    flat_map sender d = repeat (target contract) (List.length targets) /\
    outcomes d = expectedOutcomes env targets (calls isTransfer w) (calls isTxWait w).
Proof.
  induction targets as [|to rest IH]; intros w.
  - exists []. unfold result, after; cbn. rewrite app_nil_r. repeat split. constructor.
  - destruct (sendTo_trace contract to w) as (d & R & E & F & Rc & Sd & Oc & Kt & Kw).
    pose proof (calls_extension isTransfer _ _ _ E) as Ct. rewrite Kt in Ct.
    pose proof (calls_extension isTxWait _ _ _ E) as Cw. rewrite Kw in Cw.
    unfold result, after in *. cbn [forOf]. rewrite run_bind.
    destruct (sendTo env contract to w) as [r w1]; cbn [fst snd] in *. subst r.
    destruct (IH w1) as (d' & R' & E' & F' & Rc' & Sd' & Oc').
    exists (d ++ d'). rewrite E', E, <- app_assoc.
    split; [exact R'|]. split; [reflexivity|]. split; [|split; [|split]].
    + apply Forall_app. split; assumption.
    + unfold recipients in *. rewrite flat_map_app, Rc, Rc'. reflexivity.
    + rewrite flat_map_app, Sd, Sd'. reflexivity.
    + unfold outcomes in *. rewrite flat_map_app, Oc, Oc', Ct, Cw.
      cbn [expectedOutcomes].
      destruct (transferReply env (calls isTransfer w)) as [[]|message].
      * destruct (receiptReply env (calls isTxWait w)) as [[]|message];
          cbn [app]; repeat f_equal; lia.
      * cbn [app]. repeat f_equal; lia.
Qed.

(** The distribution from one contract. *)
Lemma sendToRandomAddresses_trace contract w :
  exists targets d,
    result (sample env 7) w = Ok targets /\
    result (sendToRandomAddresses env contract) w = Ok tt /\
    trace (after (sendToRandomAddresses env contract) w) = trace w ++ d /\
    Forall (fun e => inDistribution e = true) d /\
    recipients d = targets /\
    flat_map sender d = repeat (target contract) (List.length targets) /\
    outcomes d = expectedOutcomes env targets (calls isTransfer w) (calls isTxWait w).
Proof.
  destruct (sample_spec 7 w) as (targets & R & T & _).
  unfold result, after, sendToRandomAddresses in *. rewrite run_bind.
  destruct (sample env 7 w) as [r w1]; cbn [fst snd] in *. subst r.
  destruct (targets_trace contract targets w1) as (d & R' & E' & F' & Rc & Sd & Oc).
  unfold result, after, calls in *. rewrite T in *.
  exists targets, d. repeat split; assumption.
Qed.

End Sampling.

(** ** The balance guard *)

Section Guard.

Variable env : Env.

Lemma log_step m w :
  exists w1 t, log m w = (Ok tt, w1) /\ trace w1 = trace w ++ [EvLog t m].
Proof. eexists _, _. split; reflexivity. Qed.

Lemma await_step {A} e kind (reply : nat -> Res A) duration w :
  exists w1,
    await env e kind reply duration w = (reply (calls kind w), w1) /\
    trace w1 = trace w ++ [e].
Proof. eexists. split; reflexivity. Qed.

Lemma compileContract_step w :
  exists w1,
    compileContract env w = (solc env (tokenSource env), w1) /\
    trace w1 = trace w ++ [EvCompile (tokenSource env)].
Proof. eexists. split; reflexivity. Qed.

(** With a compiled contract and an answered balance query, [deployToken]
    goes on to the contract creation exactly when the balance is not below
    the minimum. *)
Lemma deployToken_guard wallet nm sym w art b :
  solc env (tokenSource env) = Ok art ->
  balanceReply env (calls isGetBalance w) = Ok b ->
  exists t d,
    trace (after (deployToken env wallet nm sym) w)
      = trace w ++ [EvCompile (tokenSource env); EvGetBalance (address wallet);
                    EvLog t (LBalance (address wallet) b)] ++ d /\
    if b <? minimumBalance
    then result (deployToken env wallet nm sym) w = Throw balanceTooLow /\ d = []
    else exists t' d',
           d = EvLog t' (LDeploying nm sym)
               :: EvDeploy (address wallet) nm sym (1000 * 10 ^ 18) :: d' /\
           Forall (fun e => afterSubmission e = true) d'.
Proof.
  intros Hs Hb. unfold result, after.
  destruct (deployToken env wallet nm sym w) as [res w'] eqn:Run.
  unfold deployToken in Run. rewrite run_bind in Run.
  destruct (compileContract_step w) as (w1 & S1 & T1). rewrite S1, Hs in Run.
  rewrite run_bind in Run. unfold liftRes at 1 in Run.
  rewrite parseUnits_supply in Run. rewrite run_bind in Run.
  match type of Run with context [await env ?e ?k ?r ?d w1] =>
    destruct (await_step e k r d w1) as (w2 & S2 & T2) end.
  rewrite S2 in Run.
  rewrite (calls_extension _ _ _ _ T1) in Run. cbn [filter isGetBalance List.length] in Run.
  rewrite Nat.add_0_r, Hb in Run. rewrite run_bind in Run.
  destruct (log_step (LBalance (address wallet) b) w2) as (w3 & t & S3 & T3).
  rewrite S3 in Run. rewrite run_bind in Run. unfold liftRes at 1 in Run.
  rewrite parseEther_minimum in Run. rewrite run_bind in Run.
  assert (T : trace w3 = trace w ++ [EvCompile (tokenSource env);
                                      EvGetBalance (address wallet);
                                      EvLog t (LBalance (address wallet) b)]).
  { rewrite T3, T2, T1, <- !app_assoc. reflexivity. }
  clear S1 S2 S3 T1 T2 T3. exists t.
  destruct (b <? minimumBalance).
  - cbn [throw] in Run. injection Run as <- <-.
    exists []. cbn [fst snd]. rewrite app_nil_r. repeat split. exact T.
  - cbn [ret] in Run. rewrite run_bind in Run.
    destruct (log_step (LDeploying nm sym) w3) as (w4 & t' & S4 & T4).
    rewrite S4 in Run. rewrite run_bind, run_tryCatch in Run.
    match type of Run with context [await env ?e ?k ?r ?d w4] =>
      destruct (await_step e k r d w4) as (w5 & S5 & T5) end.
    rewrite S5 in Run.
    destruct (deployReply env (calls isDeploy w4)) as [txHash|message].
    + match type of Run with ?m w5 = _ =>
        assert (H : Emits afterSubmission m) by emits;
        destruct (H w5) as (d & E & F & _)
      end.
      unfold after in E. rewrite Run in E. cbn [fst snd] in *.
      exists (EvLog t' (LDeploying nm sym)
              :: EvDeploy (address wallet) nm sym (1000 * 10 ^ 18) :: d).
      rewrite E, T5, T4, T, <- !app_assoc. split; [reflexivity|].
      exists t', d. split; [reflexivity | exact F].
    + cbn [throw] in Run. injection Run as <- <-. cbn [fst snd].
      exists [EvLog t' (LDeploying nm sym);
              EvDeploy (address wallet) nm sym (1000 * 10 ^ 18)].
      rewrite T5, T4, T, <- !app_assoc. split; [reflexivity|].
      exists t', []. split; [reflexivity | constructor].
Qed.

End Guard.

(** ** Counting attempts *)

Lemma filter_refine {A} (p q : A -> bool) (l : list A) :
  (forall x, p x = true -> q x = true) -> filter p (filter q l) = filter p l.
Proof.
  intros I. induction l as [|x l IH]; [reflexivity|]. cbn [filter].
  destruct (q x) eqn:Q; cbn [filter].
  - rewrite IH. reflexivity.
  - destruct (p x) eqn:P; [|exact IH]. rewrite (I x P) in Q. discriminate.
Qed.

Lemma compiles_paced source n :
  List.length (filter isCompile (pacedAttempts source n)) = n.
Proof.
  induction n as [|n IH]; [reflexivity|].
  change (S n) with (1 + n)%nat. rewrite pacedAttempts_add, filter_app, length_app, IH.
  reflexivity.
Qed.

Lemma compiles_of_attempts source n d :
  filter isAttemptOrPacing d = pacedAttempts source n ->
  List.length (filter isCompile d) = n.
Proof.
  intros H. rewrite <- (filter_refine isCompile isAttemptOrPacing d).
  - rewrite H. apply compiles_paced.
  - intros e E. unfold isAttemptOrPacing. rewrite E. reflexivity.
Qed.

Lemma recipients_outcomes env targets : forall t r,
  map outcomeRecipient (expectedOutcomes env targets t r) = targets.
Proof.
  induction targets as [|to rest IH]; intros t r; [reflexivity|].
  cbn [expectedOutcomes].
  destruct (transferReply env t) as [[]|m]; [destruct (receiptReply env r) as [[]|m]|];
    cbn [map outcomeRecipient]; rewrite IH; reflexivity.
Qed.

Lemma inDeployment_no_distribution e : inDeployment e = true -> inDistribution e = false.
Proof. destruct e as [| | | | | | | |t []| | |]; simpl; intros H; trivial; discriminate. Qed.

Lemma inDeployment_no_recipient e : inDeployment e = true -> recipient e = [].
Proof. destruct e as [| | | | | | | |t []| | |]; simpl; intros H; trivial; discriminate. Qed.

Lemma inDeployment_no_sender e : inDeployment e = true -> sender e = [].
Proof. destruct e as [| | | | | | | |t []| | |]; simpl; intros H; trivial; discriminate. Qed.

Lemma afterSubmission_no_deploy e : afterSubmission e = true -> isDeploy e = false.
Proof. destruct e as [| | | | | | | |t []| | |]; simpl; intros H; trivial; discriminate. Qed.

Lemma afterSubmission_no_submission e : afterSubmission e = true -> isSubmission e = false.
Proof. destruct e as [| | | | | | | |t []| | |]; simpl; intros H; trivial; discriminate. Qed.

Lemma performed_extension {A} (m : M A) w d :
  trace (after m w) = trace w ++ d -> performed m w = d.
Proof. apply since_extension. Qed.

(** ** Slots *)

Section Slots.

Variable env : Env.

Lemma attempt_cases wallet i spec w :
  match deployToken env wallet (name spec) (symbol spec) w with
  | (Ok contract, w1) =>
      attempt env wallet i spec w
      = sendToRandomAddresses env contract
          (emit (EvLog (clock w1)
                   (LSlotDeployed (i + 1) (name spec) (symbol spec) (target contract))) w1)
  | (Throw e, w1) =>
      attempt env wallet i spec w
      = (Ok tt, emit (EvLog (clock w1) (LSlotFailed (name spec) e)) w1)
  end.
Proof.
  unfold attempt. rewrite run_tryCatch, run_bind.
  destruct (deployToken env wallet (name spec) (symbol spec) w) as [[c|e] w1].
  - rewrite run_bind. cbn [log].
    rewrite (run_Returns _ _ (Returns_sendToRandomAddresses env c)). reflexivity.
  - reflexivity.
Qed.

Lemma slot_run wallet i spec w :
  slot env wallet i spec w = wait env 3000 (after (attempt env wallet i spec) w).
Proof.
  unfold slot. rewrite run_bind.
  rewrite (run_Returns _ w (Returns_attempt env wallet i spec)). reflexivity.
Qed.

Lemma recipients_transfers d : List.length (recipients d) = List.length (filter isTransfer d).
Proof.
  induction d as [|e d IH]; [reflexivity|].
  unfold recipients in *. cbn [flat_map filter]. rewrite length_app, IH.
  destruct e; reflexivity.
Qed.

End Slots.


(** ** The window in which a wait ends *)

Lemma countdownShown_turns shown : countdownShown (countdownTurns shown) = shown.
Proof.
  induction shown as [|r shown IH]; [reflexivity|].
  unfold countdownShown, countdownTurns in *. cbn [flat_map app remainingShown].
  rewrite IH. reflexivity.
Qed.

Section Timing.

Variable env : Env.





End Timing.


(** * The claims *)

(** ** Compilation *)

(** C1, as stated, fails: two deployments in one run invoke the external
    compiler twice, and a second call of [compileContract] compiles
    again. *)
Lemma compile_memoized_refuted :
  ~ (calls isCompile
       (after (deployToken sampleEnv aliceWallet "Lunar Fox" "LFX" ;;;
               deployToken sampleEnv aliceWallet "Solar Owl" "SOW") world0) <= 1)%nat /\
  calls isCompile (after (compileContract sampleEnv ;;; compileContract sampleEnv) world0)
    = 2%nat.
Proof. split; vm_compute; [lia | reflexivity]. Qed.

(** C1, amended: compilation is not memoized.  Every call of
    [compileContract] invokes the external compiler once on the same source
    text, and so returns the same artifact as the call before; every
    [deployToken] calls it once, so a batch of n deployment attempts invokes
    the compiler n times. *)
Theorem compile_runs_at_every_deployment env :
  (forall w,
     performed (compileContract env) w = [EvCompile (tokenSource env)] /\
     result (compileContract env) w = solc env (tokenSource env)) /\
  (forall w w', result (compileContract env) w = result (compileContract env) w') /\
  (forall wallet nm sym w,
     calls isCompile (after (deployToken env wallet nm sym) w) = S (calls isCompile w)) /\
  (forall wallet names i w,
     calls isCompile (after (forIndex i names (slot env wallet)) w)
       = (calls isCompile w + List.length names)%nat).
Proof.
  repeat split.
  - apply performed_extension. reflexivity.
  - intros wallet nm sym w.
    destruct (deployToken_trace env wallet nm sym w) as (d & E & F & _).
    rewrite (calls_extension _ _ _ _ E). cbn [filter isCompile List.length].
    rewrite (filter_none inDeployment isCompile d F); [cbn; lia|].
    intros e H. destruct e as [| | | | | | | |t []| | |]; trivial; discriminate.
  - intros wallet names i w.
    destruct (batch_trace env wallet names i w) as (d & _ & E & _ & P & _).
    rewrite (calls_extension _ _ _ _ E), (compiles_of_attempts _ _ _ P). reflexivity.
Qed.

(** ** Name generation *)

(** C2, as stated, fails: when the name generator gives up on the second
    batch of a run, the run ends with [process.exit(1)]; no later batch or
    cycle is started. *)
Lemma generation_failure_survived_refuted :
  nameReply exhaustedEnv 1 = Throw "GenerationExhausted" /\
  last (trace (main exhaustedEnv 3 world0)) (EvStatus None) = EvExit 1 /\
  calls isGenerateNames (main exhaustedEnv 3 world0) = 2%nat /\
  cycleStarts (trace (main exhaustedEnv 3 world0)) = [clock world0].
Proof. vm_compute. repeat split. Qed.

(** C2, amended: a throw of the name generator is not caught inside the
    loop.  The first batch it refuses, the n-th of the run, ends
    [mainLoop] with that throw; the handler attached to [mainLoop()] logs it
    as fatal and ends the process with exit code 1, and no batch is asked
    for after it. *)
Theorem name_generation_failure_exits env cycles w n e :
  (n < cycles * List.length (wallets env))%nat ->
  (forall j, (j < n)%nat ->
     exists names, nameReply env (calls isGenerateNames w + j) = Ok names) ->
  nameReply env (calls isGenerateNames w + n) = Throw e ->
  result (mainLoop env cycles) w = Throw e /\
  (exists t, main env cycles w
             = emit (EvExit 1) (emit (EvLog t (LFatal e)) (after (mainLoop env cycles) w))) /\
  calls isGenerateNames (main env cycles w) = (calls isGenerateNames w + n + 1)%nat.
Proof.
  intros Hn H T.
  assert (K0 : calls isGenerateNames (emit (EvStatus None) w) = calls isGenerateNames w)
    by (rewrite calls_emit; reflexivity).
  destruct (whileTrue_throw env cycles (emit (EvStatus None) w) n e Hn) as (R & K).
  { intros j Hj. rewrite K0. apply H, Hj. }
  { rewrite K0. exact T. }
  unfold main, result, after in *. rewrite mainLoop_run.
  destruct (whileTrue env cycles (emit (EvStatus None) w)) as [r w1]; cbn [fst snd] in *.
  subst r. split; [reflexivity|]. split.
  - exists (clock w1). reflexivity.
  - cbn [log snd]. rewrite !calls_emit. cbn [isGenerateNames]. rewrite K, K0. reflexivity.
Qed.

Lemma name_generation_failure_exits_witness :
  result (mainLoop exhaustedEnv 3) world0 = Throw "GenerationExhausted" /\
  (exists t, main exhaustedEnv 3 world0
             = emit (EvExit 1)
                 (emit (EvLog t (LFatal "GenerationExhausted"))
                    (after (mainLoop exhaustedEnv 3) world0))) /\
  calls isGenerateNames (main exhaustedEnv 3 world0)
    = (calls isGenerateNames world0 + 1 + 1)%nat.
Proof.
  apply (name_generation_failure_exits exhaustedEnv 3 world0 1 "GenerationExhausted").
  - simpl. lia.
  - intros j Hj. exists twoSpecs. destruct j; [reflexivity | lia].
  - reflexivity.
Defined.

(** ** The balance guard of a deployment *)

(** C3: when the balance queried for the wallet is below the minimum,
    [deployToken] throws "Balance too low" and has sent nothing: the balance
    query is its only request to the node. *)
Theorem deployToken_insufficient_funds env wallet nm sym w art b :
  solc env (tokenSource env) = Ok art ->
  balanceReply env (calls isGetBalance w) = Ok b ->
  b < minimumBalance ->
  result (deployToken env wallet nm sym) w = Throw balanceTooLow /\
  filter isChainCall (performed (deployToken env wallet nm sym) w)
    = [EvGetBalance (address wallet)] /\
  filter isSubmission (performed (deployToken env wallet nm sym) w) = [].
Proof.
  intros Hs Hb Low.
  destruct (deployToken_guard env wallet nm sym w art b Hs Hb) as (t & d & E & G).
  apply Z.ltb_lt in Low. rewrite Low in G. destruct G as (R & ->).
  rewrite (performed_extension _ _ _ E). repeat split. exact R.
Qed.

Lemma deployToken_insufficient_funds_witness :
  result (deployToken poorEnv aliceWallet "Lunar Fox" "LFX") world0 = Throw balanceTooLow /\
  filter isChainCall (performed (deployToken poorEnv aliceWallet "Lunar Fox" "LFX") world0)
    = [EvGetBalance (address aliceWallet)] /\
  filter isSubmission (performed (deployToken poorEnv aliceWallet "Lunar Fox" "LFX") world0)
    = [].
Proof.
  apply (deployToken_insufficient_funds poorEnv aliceWallet "Lunar Fox" "LFX" world0
           tokenArtifact 999999999999).
  - reflexivity.
  - reflexivity.
  - reflexivity.
Defined.

(** C4: whatever fails inside a slot, a deployment or a transfer, the slot
    returns normally after logging the failed deployment, so that the loop
    over the names runs every slot, the cycle serves every wallet and the
    endless loop runs every cycle: as long as names are generated, the
    process never exits. *)
Theorem slot_failures_are_isolated env :
  (forall k, exists names, nameReply env k = Ok names) ->
  (forall wallet i spec w,
     result (slot env wallet i spec) w = Ok tt /\
     forall e, result (deployToken env wallet (name spec) (symbol spec)) w = Throw e ->
       exists d t, performed (attempt env wallet i spec) w
                   = d ++ [EvLog t (LSlotFailed (name spec) e)]) /\
  (forall wallet names i w,
     result (forIndex i names (slot env wallet)) w = Ok tt /\
     List.length (filter isCompile (performed (forIndex i names (slot env wallet)) w))
       = List.length names) /\
  (forall w,
     result (cycle env) w = Ok tt /\
     List.length (filter isCompile (performed (cycle env) w))
       = batchSizes env (calls isGenerateNames w) (List.length (wallets env))) /\
  (forall cycles w,
     result (mainLoop env cycles) w = Ok tt /\
     main env cycles w = after (mainLoop env cycles) w /\
     List.length (cycleStarts (performed (mainLoop env cycles) w)) = cycles).
Proof.
  intros Hnames. split; [|split; [|split]].
  - intros wallet i spec w. split; [apply Returns_unit, Returns_slot|].
    intros e R. pose proof (attempt_cases env wallet i spec w) as A.
    destruct (deployToken_trace env wallet (name spec) (symbol spec) w) as (d & E & _).
    unfold result, after in *.
    destruct (deployToken env wallet (name spec) (symbol spec) w) as [r w1].
    cbn [fst snd] in *. subst r.
    exists (EvCompile (tokenSource env) :: d), (clock w1).
    apply performed_extension. unfold after. rewrite A. cbn [snd emit trace].
    rewrite E, <- app_assoc. reflexivity.
  - intros wallet names i w.
    destruct (batch_trace env wallet names i w) as (d & R & E & _ & P & _).
    split; [exact R|].
    rewrite (performed_extension _ _ _ E). exact (compiles_of_attempts _ _ _ P).
  - intros w. destruct (cycle_ok env w) as (R & _ & P); [intros; apply Hnames|].
    split; [exact R|]. exact (compiles_of_attempts _ _ _ P).
  - intros cycles w.
    destruct (whileTrue_ok env cycles Hnames (emit (EvStatus None) w)) as (R & N).
    destruct (whileTrue_trace env cycles (emit (EvStatus None) w)) as (d & n & E & _).
    rewrite (since_extension _ _ _ E) in N.
    unfold main, performed, result, after in *. rewrite mainLoop_run.
    destruct (whileTrue env cycles (emit (EvStatus None) w)) as [r w1]; cbn [fst snd] in *.
    subst r. repeat split.
    rewrite (since_extension w _ (EvStatus None :: d)).
    + exact N.
    + cbn [emit trace] in E. rewrite E, <- app_assoc. reflexivity.
Qed.

Lemma slot_failures_are_isolated_witness :
  (forall wallet i spec w,
     result (slot sampleEnv wallet i spec) w = Ok tt /\
     forall e, result (deployToken sampleEnv wallet (name spec) (symbol spec)) w = Throw e ->
       exists d t, performed (attempt sampleEnv wallet i spec) w
                   = d ++ [EvLog t (LSlotFailed (name spec) e)]) /\
  (forall wallet names i w,
     result (forIndex i names (slot sampleEnv wallet)) w = Ok tt /\
     List.length (filter isCompile (performed (forIndex i names (slot sampleEnv wallet)) w))
       = List.length names) /\
  (forall w,
     result (cycle sampleEnv) w = Ok tt /\
     List.length (filter isCompile (performed (cycle sampleEnv) w))
       = batchSizes sampleEnv (calls isGenerateNames w) (List.length (wallets sampleEnv))) /\
  (forall cycles w,
     result (mainLoop sampleEnv cycles) w = Ok tt /\
     main sampleEnv cycles w = after (mainLoop sampleEnv cycles) w /\
     List.length (cycleStarts (performed (mainLoop sampleEnv cycles) w)) = cycles).
Proof.
  apply (slot_failures_are_isolated sampleEnv).
  intros k. exists twoSpecs. reflexivity.
Defined.

(** C5: within a slot the distribution runs exactly when the deployment
    succeeded.  After a successful [deployToken], [sendToRandomAddresses]
    runs on the returned contract and every transfer of the slot is sent
    from it; after a failed one, the slot performs no action of the
    distribution. *)
Theorem distribution_follows_deployment env wallet i spec w :
  match deployToken env wallet (name spec) (symbol spec) w with
  | (Ok contract, w1) =>
      let w2 := emit (EvLog (clock w1)
                        (LSlotDeployed (i + 1) (name spec) (symbol spec) (target contract)))
                  w1 in
      attempt env wallet i spec w = sendToRandomAddresses env contract w2 /\
      exists targets,
        result (sample env 7) w2 = Ok targets /\
        List.length targets = Nat.min 7 (List.length (addresses env)) /\
        recipients (performed (attempt env wallet i spec) w) = targets /\
        flat_map sender (performed (attempt env wallet i spec) w)
          = repeat (target contract) (List.length targets)
  | (Throw e, w1) =>
      attempt env wallet i spec w
        = (Ok tt, emit (EvLog (clock w1) (LSlotFailed (name spec) e)) w1) /\
      filter inDistribution (performed (attempt env wallet i spec) w) = []
  end.
Proof.
  pose proof (attempt_cases env wallet i spec w) as A.
  destruct (deployToken_trace env wallet (name spec) (symbol spec) w) as (d & E & F & _).
  unfold after in E.
  destruct (deployToken env wallet (name spec) (symbol spec) w) as [[c|e] w1];
    cbn [snd] in E.
  - cbv zeta. split; [exact A|].
    set (w2 := emit _ w1) in *.
    destruct (sendToRandomAddresses_trace env c w2) as (targets & d' & S & _ & E' & _ & Rc & Sd & _).
    destruct (sample_spec env 7 w2) as (targets' & S' & _ & _ & L & _).
    rewrite S in S'. injection S' as <-.
    exists targets. split; [exact S|]. split; [exact L|].
    assert (P : performed (attempt env wallet i spec) w
                = (EvCompile (tokenSource env) :: d)
                  ++ EvLog (clock w1)
                       (LSlotDeployed (i + 1) (name spec) (symbol spec) (target c)) :: d').
    { apply performed_extension. unfold after in *. rewrite A, E'.
      unfold w2; cbn [emit trace]. rewrite E, <- !app_assoc. reflexivity. }
    rewrite P. unfold recipients in *. rewrite !flat_map_app.
    cbn [flat_map recipient sender app].
    rewrite (flat_map_none _ recipient d F inDeployment_no_recipient).
    rewrite (flat_map_none _ sender d F inDeployment_no_sender).
    split; assumption.
  - split; [exact A|].
    rewrite (performed_extension _ w
               (EvCompile (tokenSource env) :: d
                ++ [EvLog (clock w1) (LSlotFailed (name spec) e)])).
    + cbn [filter inDistribution]. rewrite filter_app.
      rewrite (filter_none _ _ d F inDeployment_no_distribution). reflexivity.
    + unfold after. rewrite A. cbn [snd emit trace]. rewrite E, <- app_assoc. reflexivity.
Qed.

(** ** Distribution *)

(** C6: the targets of a distribution are the first 7 addresses of a
    rearrangement of the pool.  For a pool of distinct addresses and any
    sample size, the sample has min(size, pool size) addresses, distinct
    and from the pool; [sendToRandomAddresses] sends one transfer to each of
    the min(7, pool size) sampled addresses, 7 when the pool has 7 or
    more. *)
Theorem sample_is_without_replacement env :
  NoDup (addresses env) ->
  (forall size w,
     exists targets,
       result (sample env size) w = Ok targets /\
       List.length targets = Nat.min size (List.length (addresses env)) /\
       NoDup targets /\
       incl targets (addresses env)) /\
  (forall contract w,
     let sent := recipients (performed (sendToRandomAddresses env contract) w) in
     List.length (filter isTransfer (performed (sendToRandomAddresses env contract) w))
       = List.length sent /\
     List.length sent = Nat.min 7 (List.length (addresses env)) /\
     NoDup sent /\
     incl sent (addresses env) /\
     ((7 <= List.length (addresses env))%nat -> List.length sent = 7%nat)).
Proof.
  intros D. split.
  - intros size w. destruct (sample_spec env size w) as (targets & S & _ & _ & L & I & N).
    exists targets. repeat split; auto.
  - intros contract w. cbv zeta.
    destruct (sendToRandomAddresses_trace env contract w)
      as (targets & d & S & _ & E & _ & Rc & _).
    destruct (sample_spec env 7 w) as (targets' & S' & _ & _ & L & I & N).
    rewrite S in S'. injection S' as <-.
    rewrite (performed_extension _ _ _ E), Rc.
    split; [rewrite <- Rc; symmetry; apply recipients_transfers|].
    repeat split; auto.
    intros H. rewrite L. lia.
Qed.

Lemma sample_is_without_replacement_witness :
  (forall size w,
     exists targets,
       result (sample sampleEnv size) w = Ok targets /\
       List.length targets = Nat.min size (List.length (addresses sampleEnv)) /\
       NoDup targets /\
       incl targets (addresses sampleEnv)) /\
  (forall contract w,
     let sent := recipients (performed (sendToRandomAddresses sampleEnv contract) w) in
     List.length (filter isTransfer (performed (sendToRandomAddresses sampleEnv contract) w))
       = List.length sent /\
     List.length sent = Nat.min 7 (List.length (addresses sampleEnv)) /\
     NoDup sent /\
     incl sent (addresses sampleEnv) /\
     ((7 <= List.length (addresses sampleEnv))%nat -> List.length sent = 7%nat)).
Proof.
  apply (sample_is_without_replacement sampleEnv).
  repeat (constructor; [simpl; intuition discriminate|]). constructor.
Defined.

(** C7, as stated, fails on what is returned: a distribution in which two
    transfers are rejected and one in which none is return the same value,
    so the value returned is not the sequence of outcomes. *)
Lemma distribution_returns_outcomes_refuted :
  result (sendToRandomAddresses sampleEnv sampleContract) world0
    = result (sendToRandomAddresses smoothEnv sampleContract) world0 /\
  outcomes (performed (sendToRandomAddresses sampleEnv sampleContract) world0)
    <> outcomes (performed (sendToRandomAddresses smoothEnv sampleContract) world0).
Proof. split; vm_compute; [reflexivity | discriminate]. Qed.

(** C7, amended: every sampled recipient is tried exactly once, in order; a
    transfer that fails is caught and logged as failed for that recipient
    and the following recipients are still tried; the loop returns, without
    a value, only after the last recipient, and the per-recipient outcomes
    are the log lines, one per recipient in order. *)
Theorem distribution_tries_every_recipient env contract :
  (forall targets w,
     result (forOf targets (sendTo env contract)) w = Ok tt /\
     recipients (performed (forOf targets (sendTo env contract)) w) = targets /\
     outcomes (performed (forOf targets (sendTo env contract)) w)
       = expectedOutcomes env targets (calls isTransfer w) (calls isTxWait w) /\
     map outcomeRecipient (outcomes (performed (forOf targets (sendTo env contract)) w))
       = targets) /\
  (forall w,
     exists targets,
       result (sample env 7) w = Ok targets /\
       result (sendToRandomAddresses env contract) w = Ok tt /\
       recipients (performed (sendToRandomAddresses env contract) w) = targets /\
       outcomes (performed (sendToRandomAddresses env contract) w)
         = expectedOutcomes env targets (calls isTransfer w) (calls isTxWait w) /\
       map outcomeRecipient (outcomes (performed (sendToRandomAddresses env contract) w))
         = targets).
Proof.
  split.
  - intros targets w.
    destruct (targets_trace env contract targets w) as (d & R & E & _ & Rc & _ & Oc).
    rewrite (performed_extension _ _ _ E), Oc, recipients_outcomes. repeat split; assumption.
  - intros w.
    destruct (sendToRandomAddresses_trace env contract w)
      as (targets & d & S & R & E & _ & Rc & _ & Oc).
    exists targets.
    rewrite (performed_extension _ _ _ E), Oc, recipients_outcomes. repeat split; assumption.
Qed.

(** ** Timing *)



(** C9: every attempt, successful or not, with its distribution if any, is
    followed by [wait(3000)] before anything else happens, and the clock
    moves on by at least 3000 ms; over a whole run the attempts and the
    3000 ms delays alternate, so that two consecutive attempts are always
    separated by one such delay. *)
Theorem pacing_follows_every_attempt env :
  (forall wallet i spec w,
     slot env wallet i spec w = wait env 3000 (after (attempt env wallet i spec) w) /\
     (exists d,
        performed (slot env wallet i spec) w
          = EvCompile (tokenSource env) :: d ++ [EvWait 3000] /\
        Forall (fun e => inAttempt e = true) d) /\
     clock (after (attempt env wallet i spec) w) + 3000
       <= clock (after (slot env wallet i spec) w)) /\
  (forall ws w,
     exists n,
       filter isAttemptOrPacing (performed (forOf ws (walletBatch env)) w)
         = pacedAttempts (tokenSource env) n) /\
  (forall cycles w,
     exists n,
       filter isAttemptOrPacing (performed (mainLoop env cycles) w)
         = pacedAttempts (tokenSource env) n).
Proof.
  split; [|split].
  - intros wallet i spec w. split; [apply slot_run|]. split.
    + destruct (slot_trace env wallet i spec w) as (d & _ & E & F & _).
      exists d. split; [exact (performed_extension _ _ _ E) | exact F].
    + unfold after at 2. rewrite slot_run.
      cbn [wait await snd advance emit clock]. lia.
  - intros ws w. destruct (wallets_trace env ws w) as (d & n & E & _ & P & _).
    exists n. rewrite (performed_extension _ _ _ E). exact P.
  - intros cycles w.
    destruct (whileTrue_trace env cycles (emit (EvStatus None) w)) as (d & n & E & _ & _ & P & _).
    exists n. rewrite (performed_extension _ w (EvStatus None :: d)).
    + exact P.
    + unfold after in *. rewrite mainLoop_run, E. cbn [emit trace].
      rewrite <- app_assoc. reflexivity.
Qed.

(** ** The minimum balance *)

(** C10: the minimum is [parseEther("0.000001")], that is 10^12 wei, and
    [deployToken] sends the contract creation exactly when the queried
    balance is at least 10^12 wei. *)
Theorem minimum_balance_is_one_microether env wallet nm sym w art b :
  solc env (tokenSource env) = Ok art ->
  balanceReply env (calls isGetBalance w) = Ok b ->
  parseEther "0.000001" = Ok (10 ^ 12) /\
  minimumBalance = 10 ^ 12 /\
  (10 ^ 12 <= b <->
   filter isDeploy (performed (deployToken env wallet nm sym) w)
     = [EvDeploy (address wallet) nm sym (1000 * 10 ^ 18)]) /\
  (b < 10 ^ 12 <->
   filter isSubmission (performed (deployToken env wallet nm sym) w) = []).
Proof.
  intros Hs Hb. split; [reflexivity|]. split; [reflexivity|].
  destruct (deployToken_guard env wallet nm sym w art b Hs Hb) as (t & d & E & G).
  rewrite (performed_extension _ _ _ E).
  change (10 ^ 12) with minimumBalance.
  destruct (b <? minimumBalance) eqn:Low.
  - apply Z.ltb_lt in Low. destruct G as (_ & ->). cbn [app filter isDeploy isSubmission].
    split; split; intros H; trivial; try lia; discriminate.
  - apply Z.ltb_ge in Low. destruct G as (t' & d' & -> & F).
    cbn [app filter isDeploy isSubmission].
    rewrite (filter_none _ _ d' F afterSubmission_no_deploy).
    rewrite (filter_none _ _ d' F afterSubmission_no_submission).
    split; split; intros H; trivial; try lia; discriminate.
Qed.

Lemma minimum_balance_is_one_microether_witness :
  parseEther "0.000001" = Ok (10 ^ 12) /\
  minimumBalance = 10 ^ 12 /\
  (10 ^ 12 <= 5 * 10 ^ 12 <->
   filter isDeploy (performed (deployToken sampleEnv aliceWallet "Lunar Fox" "LFX") world0)
     = [EvDeploy (address aliceWallet) "Lunar Fox" "LFX" (1000 * 10 ^ 18)]) /\
  (5 * 10 ^ 12 < 10 ^ 12 <->
   filter isSubmission (performed (deployToken sampleEnv aliceWallet "Lunar Fox" "LFX") world0)
     = []).
Proof.
  apply (minimum_balance_is_one_microether sampleEnv aliceWallet "Lunar Fox" "LFX" world0
           tokenArtifact (5 * 10 ^ 12)).
  - reflexivity.
  - reflexivity.
Defined.

(** * Further properties *)

(** ** The course of a deployment *)

Section Course.

Variable env : Env.

Lemma deployToken_course wallet nm sym w :
  result (deployToken env wallet nm sym) w
    = fst (deployment env wallet nm sym (calls isGetBalance w) (calls isDeploy w)
             (calls isWaitForDeployment w) (calls isGetAddress w)) /\
  filter isChainCall (performed (deployToken env wallet nm sym) w)
    = snd (deployment env wallet nm sym (calls isGetBalance w) (calls isDeploy w)
             (calls isWaitForDeployment w) (calls isGetAddress w)).
Proof.
  unfold result, performed, after, deployment.
  destruct (deployToken env wallet nm sym w) as [res w'] eqn:Run.
  unfold deployToken in Run. rewrite run_bind in Run.
  destruct (compileContract_step env w) as (w1 & S1 & T1). rewrite S1 in Run.
  destruct (solc env (tokenSource env)) as [art|message].
  2:{ injection Run as <- <-. cbn [fst snd]. rewrite (since_extension _ _ _ T1).
      split; reflexivity. }
  rewrite run_bind in Run. unfold liftRes at 1 in Run.
  rewrite parseUnits_supply in Run. rewrite run_bind in Run.
  match type of Run with context [await env ?e ?k ?r ?d w1] =>
    destruct (await_step env e k r d w1) as (w2 & S2 & T2) end.
  rewrite S2 in Run.
  rewrite (calls_extension _ _ _ _ T1) in Run. cbn [filter isGetBalance List.length] in Run.
  rewrite Nat.add_0_r in Run. rewrite T1 in T2. rewrite <- app_assoc in T2. clear S1 S2 T1 w1.
  destruct (balanceReply env (calls isGetBalance w)) as [b|message].
  2:{ injection Run as <- <-. cbn [fst snd]. rewrite (since_extension _ _ _ T2).
      split; reflexivity. }
  rewrite run_bind in Run.
  destruct (log_step (LBalance (address wallet) b) w2) as (w3 & t & S3 & T3).
  rewrite S3 in Run. rewrite run_bind in Run. unfold liftRes at 1 in Run.
  rewrite parseEther_minimum in Run. rewrite run_bind in Run.
  rewrite T2 in T3. rewrite <- app_assoc in T3. clear S3 T2 w2.
  destruct (b <? minimumBalance).
  { cbn [throw] in Run. injection Run as <- <-. cbn [fst snd].
    rewrite (since_extension _ _ _ T3). split; reflexivity. }
  cbn [ret] in Run. rewrite run_bind in Run.
  destruct (log_step (LDeploying nm sym) w3) as (w4 & t' & S4 & T4).
  rewrite S4 in Run. rewrite run_bind, run_tryCatch in Run.
  rewrite T3 in T4. rewrite <- app_assoc in T4. clear S4 T3 w3.
  match type of Run with context [await env ?e ?k ?r ?d w4] =>
    destruct (await_step env e k r d w4) as (w5 & S5 & T5) end.
  rewrite S5 in Run.
  rewrite (calls_extension _ _ _ _ T4) in Run. cbn [filter isDeploy List.length app] in Run.
  rewrite Nat.add_0_r in Run. rewrite T4 in T5. rewrite <- app_assoc in T5. clear S5 T4 w4.
  destruct (deployReply env (calls isDeploy w)) as [txHash|message].
  2:{ cbn [throw] in Run. injection Run as <- <-. cbn [fst snd].
      rewrite (since_extension _ _ _ T5). split; reflexivity. }
  rewrite run_bind in Run.
  destruct (log_step (LAwaiting txHash) w5) as (w6 & t6 & S6 & T6).
  rewrite S6 in Run. rewrite run_bind, run_tryCatch in Run.
  rewrite T5 in T6. rewrite <- app_assoc in T6. clear S6 T5 w5.
  match type of Run with context [await env ?e ?k ?r ?d w6] =>
    destruct (await_step env e k r d w6) as (w7 & S7 & T7) end.
  rewrite S7 in Run.
  rewrite (calls_extension _ _ _ _ T6) in Run.
  cbn [filter isWaitForDeployment List.length app] in Run.
  rewrite Nat.add_0_r in Run. rewrite T6 in T7. rewrite <- app_assoc in T7. clear S7 T6 w6.
  destruct (confirmReply env (calls isWaitForDeployment w)) as [[]|message].
  2:{ cbn [throw] in Run. injection Run as <- <-. cbn [fst snd].
      rewrite (since_extension _ _ _ T7). split; reflexivity. }
  rewrite run_bind in Run.
  match type of Run with context [await env ?e ?k ?r ?d w7] =>
    destruct (await_step env e k r d w7) as (w8 & S8 & T8) end.
  rewrite S8 in Run.
  rewrite (calls_extension _ _ _ _ T7) in Run.
  cbn [filter isGetAddress List.length app] in Run.
  rewrite Nat.add_0_r in Run. rewrite T7 in T8. rewrite <- app_assoc in T8. clear S8 T7 w7.
  destruct (addressReply env (calls isGetAddress w)) as [deployedAddress|message].
  2:{ injection Run as <- <-. cbn [fst snd].
      rewrite (since_extension _ _ _ T8). split; reflexivity. }
  rewrite run_bind in Run.
  destruct (log_step (LDeployedAt deployedAddress) w8) as (w9 & t9 & S9 & T9).
  rewrite S9 in Run. cbn [ret] in Run. injection Run as <- <-. cbn [fst snd].
  rewrite T8 in T9. rewrite <- app_assoc in T9.
  rewrite (since_extension _ _ _ T9). split; reflexivity.
Qed.

End Course.

(** X1: a [deployToken] that throws tells by its message which step
    failed, and has sent no request after that step.  The compiler's
    throw, the balance query's throw and the address resolution's throw
    are passed on as they are; a balance below the minimum gives
    "⚠️ Balance too low to deploy contract."; a refused creation and a
    failed confirmation are passed on behind "❌ Deploy error: " and
    "❌ waitForDeployment error: ".  A creation is sent only for a
    compiled contract and a balance of the minimum or more, and at most
    once. *)
Theorem deployToken_follows_the_answers env wallet nm sym w message :
  result (deployToken env wallet nm sym) w = Throw message ->
  let requests := filter isChainCall (performed (deployToken env wallet nm sym) w) in
  let query := EvGetBalance (address wallet) in
  let creation := EvDeploy (address wallet) nm sym (1000 * 10 ^ 18) in
  (solc env (tokenSource env) = Throw message /\ requests = []) \/
  (exists art,
     solc env (tokenSource env) = Ok art /\
     ((balanceReply env (calls isGetBalance w) = Throw message /\ requests = [query]) \/
      (exists balance,
         balanceReply env (calls isGetBalance w) = Ok balance /\
         ((balance < 10 ^ 12 /\
           message = "⚠️ Balance too low to deploy contract." /\
           requests = [query]) \/
          (10 ^ 12 <= balance /\
           ((exists cause,
               deployReply env (calls isDeploy w) = Throw cause /\
               message = ("❌ Deploy error: " ++ cause)%string /\
               requests = [query; creation]) \/
            (exists txHash,
               deployReply env (calls isDeploy w) = Ok txHash /\
               ((exists cause,
                   confirmReply env (calls isWaitForDeployment w) = Throw cause /\
                   message = ("❌ waitForDeployment error: " ++ cause)%string /\
                   requests = [query; creation; EvWaitForDeployment txHash]) \/
                (confirmReply env (calls isWaitForDeployment w) = Ok tt /\
                 addressReply env (calls isGetAddress w) = Throw message /\
                 requests = [query; creation; EvWaitForDeployment txHash;
                             EvGetAddress txHash]))))))))).
Proof.
  intros R. cbv zeta.
  destruct (deployToken_course env wallet nm sym w) as (Rs & Rq).
  rewrite R in Rs. rewrite Rq. clear Rq R. unfold deployment in *.
  destruct (solc env (tokenSource env)) as [art|m].
  2:{ left. cbn [fst snd] in *. injection Rs as ->. split; reflexivity. }
  right. exists art. split; [reflexivity|].
  destruct (balanceReply env (calls isGetBalance w)) as [b|m].
  2:{ left. cbn [fst snd] in *. injection Rs as ->. split; reflexivity. }
  right. exists b. split; [reflexivity|].
  unfold minimumBalance in *.
  destruct (Z.ltb_spec b (10 ^ 12)) as [Low|High].
  { left. cbn [fst snd] in *. injection Rs as ->. repeat split. exact Low. }
  right. split; [exact High|].
  destruct (deployReply env (calls isDeploy w)) as [txHash|m].
  2:{ left. exists m. cbn [fst snd] in *. injection Rs as ->. repeat split. }
  right. exists txHash. split; [reflexivity|].
  destruct (confirmReply env (calls isWaitForDeployment w)) as [[]|m].
  2:{ left. exists m. cbn [fst snd] in *. injection Rs as ->. repeat split. }
  right. split; [reflexivity|].
  destruct (addressReply env (calls isGetAddress w)) as [a|m];
    cbn [fst snd] in *; [discriminate|].
  injection Rs as ->. split; reflexivity.
Qed.

Lemma deployToken_follows_the_answers_witness :
  let message := "❌ Deploy error: insufficient funds for gas" in
  let requests :=
    filter isChainCall
      (performed (deployToken refusingEnv aliceWallet "Lunar Fox" "LFX") world0) in
  let query := EvGetBalance (address aliceWallet) in
  let creation := EvDeploy (address aliceWallet) "Lunar Fox" "LFX" (1000 * 10 ^ 18) in
  (solc refusingEnv (tokenSource refusingEnv) = Throw message /\ requests = []) \/
  (exists art,
     solc refusingEnv (tokenSource refusingEnv) = Ok art /\
     ((balanceReply refusingEnv (calls isGetBalance world0) = Throw message /\
       requests = [query]) \/
      (exists balance,
         balanceReply refusingEnv (calls isGetBalance world0) = Ok balance /\
         ((balance < 10 ^ 12 /\
           message = "⚠️ Balance too low to deploy contract." /\
           requests = [query]) \/
          (10 ^ 12 <= balance /\
           ((exists cause,
               deployReply refusingEnv (calls isDeploy world0) = Throw cause /\
               message = ("❌ Deploy error: " ++ cause)%string /\
               requests = [query; creation]) \/
            (exists txHash,
               deployReply refusingEnv (calls isDeploy world0) = Ok txHash /\
               ((exists cause,
                   confirmReply refusingEnv (calls isWaitForDeployment world0)
                     = Throw cause /\
                   message = ("❌ waitForDeployment error: " ++ cause)%string /\
                   requests = [query; creation; EvWaitForDeployment txHash]) \/
                (confirmReply refusingEnv (calls isWaitForDeployment world0) = Ok tt /\
                 addressReply refusingEnv (calls isGetAddress world0) = Throw message /\
                 requests = [query; creation; EvWaitForDeployment txHash;
                             EvGetAddress txHash]))))))))).
Proof.
  apply (deployToken_follows_the_answers refusingEnv aliceWallet "Lunar Fox" "LFX" world0
           "❌ Deploy error: insufficient funds for gas").
  reflexivity.
Defined.

(** X2: a [deployToken] that returns has sent exactly one contract
    creation, with the constructor arguments (name, symbol, 1000 * 10^18),
    between the balance query and the confirmation and address resolution
    of that creation; the contract returned is bound to the wallet, carries
    the compiled interface and sits at the address the node resolved. *)
Theorem successful_deployment env wallet nm sym w contract :
  result (deployToken env wallet nm sym) w = Ok contract ->
  exists art txHash,
    solc env (tokenSource env) = Ok art /\
    deployReply env (calls isDeploy w) = Ok txHash /\
    addressReply env (calls isGetAddress w) = Ok (target contract) /\
    runner contract = wallet /\
    interface contract = abi art /\
    filter isChainCall (performed (deployToken env wallet nm sym) w)
      = [EvGetBalance (address wallet);
         EvDeploy (address wallet) nm sym (1000 * 10 ^ 18);
         EvWaitForDeployment txHash; EvGetAddress txHash].
Proof.
  intros R. destruct (deployToken_course env wallet nm sym w) as (Rs & Rq).
  rewrite R in Rs. rewrite Rq. clear Rq R. unfold deployment in *.
  destruct (solc env (tokenSource env)) as [art|]; [|discriminate].
  destruct (balanceReply env (calls isGetBalance w)) as [b|]; [|discriminate].
  destruct (b <? minimumBalance); [discriminate|].
  destruct (deployReply env (calls isDeploy w)) as [txHash|]; [|discriminate].
  destruct (confirmReply env (calls isWaitForDeployment w)) as [[]|]; [|discriminate].
  destruct (addressReply env (calls isGetAddress w)) as [a|]; [|discriminate].
  cbn [fst snd] in *. injection Rs as ->. exists art, txHash. repeat split.
Qed.

Lemma successful_deployment_witness :
  exists art txHash,
    solc sampleEnv (tokenSource sampleEnv) = Ok art /\
    deployReply sampleEnv (calls isDeploy world0) = Ok txHash /\
    addressReply sampleEnv (calls isGetAddress world0) = Ok (target sampleContract) /\
    runner sampleContract = aliceWallet /\
    interface sampleContract = abi art /\
    filter isChainCall (performed (deployToken sampleEnv aliceWallet "Lunar Fox" "LFX") world0)
      = [EvGetBalance (address aliceWallet);
         EvDeploy (address aliceWallet) "Lunar Fox" "LFX" (1000 * 10 ^ 18);
         EvWaitForDeployment txHash; EvGetAddress txHash].
Proof.
  apply (successful_deployment sampleEnv aliceWallet "Lunar Fox" "LFX" world0 sampleContract).
  reflexivity.
Defined.

(** ** A contract that does not compile *)

Section Broken.

Variable env : Env.
Variable message : string.
Hypothesis broken : solc env (tokenSource env) = Throw message.

Lemma broken_slot wallet i spec w :
  slot env wallet i spec w
  = wait env 3000
      (emit (EvLog (clock w) (LSlotFailed (name spec) message))
         (emit (EvCompile (tokenSource env)) w)).
Proof.
  rewrite slot_run. f_equal. unfold after.
  pose proof (attempt_cases env wallet i spec w) as A.
  assert (D : deployToken env wallet (name spec) (symbol spec) w
              = (Throw message, emit (EvCompile (tokenSource env)) w)).
  { unfold deployToken. rewrite run_bind. unfold compileContract. rewrite broken.
    reflexivity. }
  rewrite D in A. rewrite A. reflexivity.
Qed.

Lemma Emits_broken_slot wallet i spec : Emits offChain (slot env wallet i spec).
Proof.
  intros w. unfold after. rewrite broken_slot.
  exists [EvCompile (tokenSource env); EvLog (clock w) (LSlotFailed (name spec) message);
          EvWait 3000].
  cbn [wait await snd advance emit trace clock]. rewrite <- !app_assoc.
  repeat split; [repeat constructor | lia].
Qed.

Lemma Emits_broken_walletBatch wallet : Emits offChain (walletBatch env wallet).
Proof.
  unfold walletBatch. emits.
  - intros w. exists [EvGenerateNames 5]. unfold after; cbn.
    repeat split; [repeat constructor | lia].
  - apply Emits_forIndex. intros. apply Emits_broken_slot.
Qed.

Lemma Emits_countdown nextRun : Emits inCountdown (countdown env nextRun).
Proof.
  intros w. destruct (countdown_trace env nextRun w) as (d & _ & E & F & _ & C & _).
  exists d. repeat split; assumption.
Qed.

Lemma Emits_broken_cycle : Emits offChain (cycle env).
Proof.
  unfold cycle. emits.
  - apply Emits_forOf. intros. apply Emits_broken_walletBatch.
  - eapply Emits_weaken; [|apply Emits_countdown].
    intros e H. destruct e as [| | | | | | | |t []|[]| |]; trivial; discriminate.
Qed.

Lemma Emits_broken_mainLoop cycles : Emits offChain (mainLoop env cycles).
Proof.
  unfold mainLoop, updateStatus. emits.
  induction cycles as [|cycles IH]; cbn [whileTrue]; emits.
  - apply Emits_broken_cycle.
  - exact IH.
Qed.

End Broken.

(** X3: a contract that does not compile is not fatal to the process.
    Every slot then consists of the failed compilation, the line logging
    the failed slot with the compiler's message and the 3000 ms delay, it
    returns normally, and however long the loop runs it never sends a
    request to the node. *)
Theorem broken_contract_fails_every_slot env message :
  solc env (tokenSource env) = Throw message ->
  (forall wallet i spec w,
     result (slot env wallet i spec) w = Ok tt /\
     performed (slot env wallet i spec) w
       = [EvCompile (tokenSource env);
          EvLog (clock w) (LSlotFailed (name spec) message);
          EvWait 3000]) /\
  (forall cycles w, filter isChainCall (performed (mainLoop env cycles) w) = []).
Proof.
  intros B. split.
  - intros wallet i spec w. split; [apply Returns_unit, Returns_slot|].
    apply performed_extension. unfold after. rewrite (broken_slot env message B).
    cbn [wait await snd advance emit trace]. rewrite <- !app_assoc. reflexivity.
  - intros cycles w.
    destruct (Emits_broken_mainLoop env message B cycles w) as (d & E & F & _).
    rewrite (performed_extension _ _ _ E).
    apply (filter_none offChain isChainCall d F).
    intros e H. unfold offChain in H. destruct (isChainCall e); [discriminate | reflexivity].
Qed.

Lemma broken_contract_fails_every_slot_witness :
  (forall wallet i spec w,
     result (slot brokenEnv wallet i spec) w = Ok tt /\
     performed (slot brokenEnv wallet i spec) w
       = [EvCompile (tokenSource brokenEnv);
          EvLog (clock w)
            (LSlotFailed (name spec)
               "Cannot read properties of undefined (reading 'Token.sol')");
          EvWait 3000]) /\
  (forall cycles w, filter isChainCall (performed (mainLoop brokenEnv cycles) w) = []).
Proof.
  apply (broken_contract_fails_every_slot brokenEnv
           "Cannot read properties of undefined (reading 'Token.sol')").
  reflexivity.
Defined.

(** ** The amounts transferred *)

(** Rounding to a double moves a number below 2^59 by at most 32. *)
Lemma roundToDouble_near n :
  (n < 2 ^ 59)%N -> (roundToDouble n <= n + 32 /\ n <= roundToDouble n + 32)%N.
Proof.
  intros H. unfold roundToDouble.
  destruct (N.size n - 53)%N as [|p] eqn:E; [lia|].
  assert (S : (N.size n <= 59)%N).
  { destruct (N.eq_dec n 0) as [->|NZ]; [cbn; lia|].
    rewrite N.size_log2 by exact NZ.
    assert (N.log2 n < 59)%N by (apply N.log2_lt_pow2; lia). lia. }
  assert (P : (N.pos p = 1 \/ N.pos p = 2 \/ N.pos p = 3 \/
               N.pos p = 4 \/ N.pos p = 5 \/ N.pos p = 6)%N) by lia.
  clear E S H.
  destruct P as [->|[->|[->|[->|[->| ->]]]]];
    cbv zeta;
    match goal with |- context [(2 ^ ?e)%N] =>
      let u := eval vm_compute in (2 ^ e)%N in
      let h := eval vm_compute in (2 ^ e / 2)%N in
      change (2 ^ e)%N with u; change (u / 2)%N with h;
      pose proof (N.div_mod n u ltac:(discriminate)) as D;
      pose proof (N.mod_lt n u ltac:(discriminate)) as M;
      set (kept := (n / u)%N) in *; set (rest := (n mod u)%N) in *
    end;
    repeat match goal with |- context [(?a <? ?b)%N] =>
      destruct (N.ltb_spec a b) end;
    try destruct (N.even _); lia.
Qed.

Lemma tokensDrawn_range r :
  (r < randomDenominator)%N -> (1 <= tokensDrawn r <= 50)%N.
Proof.
  intros H. unfold tokensDrawn.
  assert (D : randomDenominator = 9007199254740992%N) by reflexivity.
  rewrite D in *.
  assert (R : (roundToDouble (r * 50) <= r * 50 + 32)%N).
  { apply roundToDouble_near. change (2 ^ 59)%N with 576460752303423488%N. lia. }
  assert (roundToDouble (r * 50) / 9007199254740992 < 50)%N.
  { apply N.Div0.div_lt_upper_bound. lia. }
  clear D H R. set (q := (roundToDouble (r * 50) / 9007199254740992)%N) in *. lia.
Qed.

Section Amounts.

Variable env : Env.

Lemma Emits_sendTo_tokens contract to : Emits wholeTokens (sendTo env contract to).
Proof.
  intros w. destruct (sendTo_trace env contract to w) as (d & _ & E & F & _).
  assert (C : clock w <= clock (after (sendTo env contract to) w)).
  { destruct (Emits_sendTo env contract to w) as (d' & _ & _ & C). exact C. }
  exists d. repeat split; trivial.
  revert E. unfold after, sendTo. rewrite run_bind, randomAmount_run.
  set (tokens := tokensDrawn _).
  assert (T : (1 <= tokens <= 50)%N).
  { apply tokensDrawn_range, N.mod_lt. discriminate. }
  rewrite run_tryCatch, run_bind. unfold await at 1.
  assert (W : wholeTokens (EvTransfer (target contract) to (Z.of_N tokens * 10 ^ 18)) = true).
  { unfold wholeTokens. rewrite Z.mod_mul, Z.eqb_refl by lia.
    rewrite andb_true_r. apply andb_true_intro. split; apply Z.leb_le; lia. }
  match goal with |- context [transferReply env ?k] =>
    destruct (transferReply env k) as [[]|m] end.
  - rewrite run_bind. unfold await at 1.
    match goal with |- context [receiptReply env ?k] =>
      destruct (receiptReply env k) as [[]|m] end;
      cbn [log snd emit advance trace]; rewrite <- !app_assoc; intros E;
      apply app_inv_head in E; subst d; cbn [app];
      (constructor; [exact W | repeat constructor]).
  - cbn [log snd emit advance trace]; rewrite <- !app_assoc; intros E;
      apply app_inv_head in E; subst d; cbn [app];
      (constructor; [exact W | repeat constructor]).
Qed.

End Amounts.

(** X4: the amount of every transfer is a whole number of tokens from 1 to
    50, in units of 10^-18 token: the draw [Math.floor(Math.random() * 50) + 1],
    whose product is rounded to a double as the code computes it, lies
    between 1 and 50 for every value of [Math.random()], and [parseUnits] of
    its decimal text with 18 decimals never throws and is that number times
    10^18.  The rounding counts: the draw 2161727821137838 / 2^53 gives 13
    tokens, the exact product giving 12. *)
Theorem transfer_amounts_are_whole_tokens env :
  (forall w,
     exists tokens,
       (1 <= tokens <= 50)%N /\
       parseUnits (toString tokens) 18 = Ok (Z.of_N tokens * 10 ^ 18) /\
       result (randomAmount env) w = parseUnits (toString tokens) 18) /\
  (forall contract w,
     Forall (fun a => exists tokens, 1 <= tokens <= 50 /\ a = tokens * 10 ^ 18)
       (flat_map amount (performed (sendToRandomAddresses env contract) w))) /\
  (tokensDrawn 2161727821137838 = 13 /\
   2161727821137838 * 50 / randomDenominator + 1 = 12)%N.
Proof.
  split; [|split; [|split; vm_compute; reflexivity]].
  - intros w. unfold result. rewrite randomAmount_run. cbn [fst].
    eexists. split; [|split; [apply parseUnits_toString|]].
    + apply tokensDrawn_range, N.mod_lt. discriminate.
    + rewrite parseUnits_toString. reflexivity.
  - intros contract w.
    assert (H : Emits wholeTokens (sendToRandomAddresses env contract)).
    { unfold sendToRandomAddresses, sample. emits.
      - apply Emits_sort.
      - apply Emits_forOf. intros. apply Emits_sendTo_tokens. }
    destruct (H w) as (d & E & F & _). rewrite (performed_extension _ _ _ E).
    clear E. induction F as [|e d He _ IH]; [constructor|].
    cbn [flat_map]. apply Forall_app. split; [|exact IH].
    destruct e as [| | | | | |tgt to a| | | | |]; cbn [amount]; try constructor;
      [|constructor].
    unfold wholeTokens in He.
    apply andb_prop in He. destruct He as (He & M).
    apply andb_prop in He. destruct He as (Lo & Hi).
    apply Z.leb_le in Lo, Hi. apply Z.eqb_eq in M.
    exists (a / 10 ^ 18).
    pose proof (Z.div_mod a (10 ^ 18) ltac:(lia)) as D.
    split; [|lia].
    split.
    + apply Z.div_le_lower_bound; lia.
    + apply Z.div_le_upper_bound; lia.
Qed.

(** ** Small pools *)

Section SmallPools.

Variable env : Env.

Lemma sample_sorted size w :
  exists shuffled,
    result (sort env (addresses env)) w = Ok shuffled /\
    Permutation (addresses env) shuffled /\
    result (sample env size) w = Ok (slice 0 size shuffled).
Proof.
  destruct (sort_perm env (addresses env) w) as (l & E & P).
  exists l. split; [exact E|]. split; [exact P|].
  unfold result, sample in *. rewrite run_bind.
  destruct (sort env (addresses env) w) as [r w1]; cbn [fst] in *. subst r.
  reflexivity.
Qed.

End SmallPools.

(** X5: a pool of at most 7 addresses is served entirely: every address of
    the pool, as often as it is listed, receives exactly one transfer
    attempt per listing, in some order.  With an empty pool the
    distribution does nothing at all, not even a random draw. *)
Theorem small_pool_is_served_entirely env contract w :
  (List.length (addresses env) <= 7)%nat ->
  Permutation (addresses env)
    (recipients (performed (sendToRandomAddresses env contract) w)) /\
  (addresses env = [] -> sendToRandomAddresses env contract w = (Ok tt, w)).
Proof.
  intros H. split.
  - destruct (sendToRandomAddresses_trace env contract w)
      as (targets & d & S & _ & E & _ & Rc & _).
    destruct (sample_sorted env 7 w) as (l & _ & P & S').
    rewrite S in S'. injection S' as ->.
    rewrite (performed_extension _ _ _ E), Rc.
    unfold slice. rewrite Nat.sub_0_r. cbn [skipn].
    rewrite firstn_all2; [exact P|].
    rewrite <- (Permutation_length P). exact H.
  - intros Empty. unfold sendToRandomAddresses, sample. rewrite Empty. reflexivity.
Qed.

Lemma small_pool_is_served_entirely_witness :
  Permutation (addresses exhaustedEnv)
    (recipients (performed (sendToRandomAddresses exhaustedEnv sampleContract) world0)) /\
  (addresses exhaustedEnv = [] ->
   sendToRandomAddresses exhaustedEnv sampleContract world0 = (Ok tt, world0)).
Proof.
  apply (small_pool_is_served_entirely exhaustedEnv sampleContract world0).
  simpl. lia.
Defined.

(** ** Confirmations *)

Lemma accepted_step env first count :
  accepted env first (S count)
  = ((if isOk (transferReply env first) then 1 else 0) + accepted env (S first) count)%nat.
Proof.
  unfold accepted. cbn [seq map filter].
  destruct (isOk (transferReply env first)); reflexivity.
Qed.

Lemma confirmations_of_loop env contract targets : forall w,
  List.length (filter isTxWait (performed (forOf targets (sendTo env contract)) w))
  = accepted env (calls isTransfer w) (List.length targets).
Proof.
  induction targets as [|to rest IH]; intros w.
  - unfold performed, after, since; cbn. rewrite skipn_all. reflexivity.
  - destruct (sendTo_trace env contract to w) as (d & R & E & _ & _ & _ & _ & Kt & Kw).
    pose proof (calls_extension isTransfer _ _ _ E) as Ct. rewrite Kt in Ct.
    specialize (IH (after (sendTo env contract to) w)).
    destruct (targets_trace env contract rest (after (sendTo env contract to) w))
      as (d' & _ & E' & _).
    rewrite (performed_extension _ _ _ E') in IH.
    rewrite (performed_extension _ w (d ++ d')).
    + rewrite filter_app, length_app, Kw, IH, Ct. cbn [List.length].
      rewrite accepted_step.
      replace (calls isTransfer w + 1)%nat with (S (calls isTransfer w)) by lia.
      destruct (transferReply env (calls isTransfer w)); reflexivity.
    + unfold after in *. cbn [forOf]. rewrite run_bind.
      unfold result in R.
      destruct (sendTo env contract to w) as [r w1]; cbn [fst snd] in *. subst r.
      rewrite E', E, app_assoc. reflexivity.
Qed.

(** X6: within a distribution a confirmation ([tx.wait]) is awaited for
    exactly the transfers that the node accepted: a transfer that is
    refused is not waited for. *)
Theorem confirmation_follows_accepted_transfers env contract w :
  List.length (filter isTxWait (performed (sendToRandomAddresses env contract) w))
  = accepted env (calls isTransfer w) (Nat.min 7 (List.length (addresses env))) /\
  (List.length (filter isTxWait (performed (sendToRandomAddresses env contract) w))
   <= List.length (filter isTransfer (performed (sendToRandomAddresses env contract) w)))%nat.
Proof.
  destruct (sample_spec env 7 w) as (targets & S & T & _ & L & _).
  destruct (sendToRandomAddresses_trace env contract w)
    as (targets' & d & S' & _ & E & _ & Rc & _).
  rewrite S in S'. injection S' as <-.
  assert (P : performed (sendToRandomAddresses env contract) w
              = performed (forOf targets (sendTo env contract)) (after (sample env 7) w)).
  { unfold performed, since, after, sendToRandomAddresses. rewrite run_bind.
    unfold result, after in *.
    destruct (sample env 7 w) as [r w1]; cbn [fst snd] in *. subst r.
    rewrite T. reflexivity. }
  assert (K : List.length (filter isTxWait (performed (sendToRandomAddresses env contract) w))
              = accepted env (calls isTransfer w) (Nat.min 7 (List.length (addresses env)))).
  { rewrite P, confirmations_of_loop, L. unfold calls. rewrite T. reflexivity. }
  split; [exact K|].
  rewrite K, (performed_extension _ _ _ E), <- recipients_transfers, Rc, L.
  unfold accepted. etransitivity; [apply filter_length_le|].
  rewrite length_map, length_seq. reflexivity.
Qed.

(** ** The lines that close the slots *)

Lemma inDeployment_no_line e : inDeployment e = true -> slotLine e = [].
Proof. destruct e as [| | | | | | | |t []| | |]; simpl; intros H; trivial; discriminate. Qed.

Lemma inDistribution_no_line e : inDistribution e = true -> slotLine e = [].
Proof. destruct e as [| | | | | | | |t []| | |]; simpl; intros H; trivial; discriminate. Qed.

Section Lines.

Variable env : Env.

Lemma slot_line wallet i spec w :
  exists d,
    trace (after (slot env wallet i spec) w) = trace w ++ d /\
    flat_map slotLine d = [name spec] /\
    flat_map requester d
      = flat_map requester (performed (deployToken env wallet (name spec) (symbol spec)) w).
Proof.
  pose proof (attempt_cases env wallet i spec w) as A.
  destruct (deployToken_trace env wallet (name spec) (symbol spec) w) as (d & E & F & _).
  rewrite (performed_extension _ _ _ E).
  unfold after in *. rewrite slot_run. unfold after.
  destruct (deployToken env wallet (name spec) (symbol spec) w) as [[c|e] w1];
    cbn [snd] in E.
  - set (w2 := emit _ w1) in A.
    destruct (sendToRandomAddresses_trace env c w2) as (targets & d' & _ & _ & E' & F' & _).
    unfold after in E'. rewrite A.
    exists ((EvCompile (tokenSource env) :: d)
            ++ EvLog (clock w1)
                 (LSlotDeployed (i + 1) (name spec) (symbol spec) (target c))
               :: d' ++ [EvWait 3000]).
    split; [|split].
    + cbn [wait await snd advance emit trace]. rewrite E'. unfold w2; cbn [emit trace].
      rewrite E, <- !app_assoc. reflexivity.
    + rewrite flat_map_app. cbn [flat_map slotLine app].
      rewrite (flat_map_none _ slotLine d F inDeployment_no_line).
      rewrite flat_map_app, (flat_map_none _ slotLine d' F' inDistribution_no_line).
      reflexivity.
    + rewrite flat_map_app. cbn [flat_map requester app].
      rewrite flat_map_app. cbn [flat_map requester app].
      rewrite (flat_map_none inDistribution requester d' F'), !app_nil_r; [reflexivity|].
      intros e H. destruct e as [| | | | | | | |t []| | |]; trivial; discriminate.
  - rewrite A.
    exists ((EvCompile (tokenSource env) :: d)
            ++ [EvLog (clock w1) (LSlotFailed (name spec) e); EvWait 3000]).
    split; [|split].
    + cbn [wait await snd advance emit trace]. rewrite E, <- !app_assoc. reflexivity.
    + rewrite flat_map_app. cbn [flat_map slotLine app].
      rewrite (flat_map_none _ slotLine d F inDeployment_no_line). reflexivity.
    + rewrite flat_map_app. cbn [flat_map requester app]. rewrite !app_nil_r.
      reflexivity.
Qed.

Lemma requesters_of_deployment wallet nm sym w :
  exists n, flat_map requester (performed (deployToken env wallet nm sym) w)
            = repeat (address wallet) n.
Proof.
  destruct (deployToken_course env wallet nm sym w) as (_ & Rq).
  assert (H : forall d, flat_map requester (filter isChainCall d) = flat_map requester d).
  { induction d as [|e d IH]; [reflexivity|]. cbn [filter flat_map].
    destruct e as [| | | | | | | |t []| | |]; cbn [isChainCall flat_map requester app];
      rewrite IH; reflexivity. }
  rewrite <- H, Rq. unfold deployment.
  destruct (solc env (tokenSource env)); [|exists 0%nat; reflexivity].
  destruct (balanceReply env (calls isGetBalance w)); [|exists 1%nat; reflexivity].
  destruct (_ <? minimumBalance); [exists 1%nat; reflexivity|].
  destruct (deployReply env (calls isDeploy w)); [|exists 2%nat; reflexivity].
  destruct (confirmReply env (calls isWaitForDeployment w)); [|exists 2%nat; reflexivity].
  destruct (addressReply env (calls isGetAddress w)); exists 2%nat; reflexivity.
Qed.

Lemma batch_lines wallet names : forall i w,
  exists d n,
    trace (after (forIndex i names (slot env wallet)) w) = trace w ++ d /\
    flat_map slotLine d = map name names /\
    flat_map requester d = repeat (address wallet) n.
Proof.
  induction names as [|spec names IH]; intros i w.
  - exists [], 0%nat. unfold after; cbn. rewrite app_nil_r. repeat split.
  - destruct (slot_line wallet i spec w) as (d & E & L & Q).
    destruct (requesters_of_deployment wallet (name spec) (symbol spec) w) as (n & Q').
    rewrite Q' in Q.
    pose proof (Returns_unit _ w (Returns_slot env wallet i spec)) as R.
    unfold after, result in *. cbn [forIndex]. rewrite run_bind.
    destruct (slot env wallet i spec w) as [r w1]; cbn [fst snd] in *. subst r.
    destruct (IH (S i) w1) as (d' & n' & E' & L' & Q'').
    exists (d ++ d'), (n + n')%nat. rewrite E', E, app_assoc.
    split; [reflexivity|]. split.
    + rewrite flat_map_app, L, L'. reflexivity.
    + rewrite flat_map_app, Q, Q'', repeat_app. reflexivity.
Qed.

Lemma walletBatch_lines wallet w :
  exists d n,
    trace (after (walletBatch env wallet) w) = trace w ++ d /\
    flat_map requester d = repeat (address wallet) n /\
    match nameReply env (calls isGenerateNames w) with
    | Ok names => flat_map slotLine d = map name names
    | Throw _ => flat_map slotLine d = []
    end.
Proof.
  unfold after. rewrite walletBatch_run. cbv zeta.
  destruct (nameReply env (calls isGenerateNames w)) as [names|e].
  - match goal with |- context [forIndex 0 names _ ?w0] =>
      destruct (batch_lines wallet names 0%nat w0) as (d & n & E & L & Q) end.
    unfold after in E.
    exists ([EvLog (clock w) (LUsingWallet (address wallet)); EvGenerateNames 5;
             EvLog (clock w) (LGenerated (map name names))] ++ d), n.
    rewrite E. unfold emit; cbn [trace]. rewrite <- !app_assoc.
    split; [reflexivity|]. split.
    + rewrite flat_map_app, Q. reflexivity.
    + rewrite flat_map_app, L. reflexivity.
  - exists [EvLog (clock w) (LUsingWallet (address wallet)); EvGenerateNames 5], 0%nat.
    unfold emit; cbn [snd trace]. rewrite <- !app_assoc. repeat split.
Qed.

End Lines.

(** X7: every name the generator returned for a wallet ends in exactly one
    closing line of its slot, "deployed" or "failed", and these lines come
    in the order of generation; the slots run are those of the list
    returned, whatever its length. *)
Theorem every_name_gets_one_slot_line env wallet w names :
  nameReply env (calls isGenerateNames w) = Ok names ->
  flat_map slotLine (performed (walletBatch env wallet) w) = map name names.
Proof.
  intros N. destruct (walletBatch_lines env wallet w) as (d & n & E & _ & L).
  rewrite N in L. rewrite (performed_extension _ _ _ E). exact L.
Qed.

Lemma every_name_gets_one_slot_line_witness :
  flat_map slotLine (performed (walletBatch sampleEnv aliceWallet) world0)
  = map name twoSpecs.
Proof.
  apply (every_name_gets_one_slot_line sampleEnv aliceWallet world0 twoSpecs).
  reflexivity.
Defined.

(** X8: the wallets are served in the order of the list, one after the
    other: the balance queries and contract creations of the loop over the
    wallets are those of the first wallet, then those of the second, and so
    on, each block on behalf of its own wallet. *)
Theorem wallets_are_served_in_order env ws : forall w,
  exists counts,
    List.length counts = List.length ws /\
    flat_map requester (performed (forOf ws (walletBatch env)) w)
    = List.concat (map (fun served => repeat (address (fst served)) (snd served))
                     (combine ws counts)).
Proof.
  induction ws as [|wallet ws IH]; intros w.
  - exists []. split; [reflexivity|].
    unfold performed, after, since; cbn. rewrite skipn_all. reflexivity.
  - destruct (walletBatch_lines env wallet w) as (d & n & E & Q & _).
    destruct (wallets_trace env ws (after (walletBatch env wallet) w)) as (d' & _ & E' & _).
    destruct (IH (after (walletBatch env wallet) w)) as (counts & Len & Q').
    rewrite (performed_extension _ _ _ E') in Q'.
    unfold performed, after in *. cbn [forOf]. rewrite run_bind.
    destruct (walletBatch env wallet w) as [[[]|e] w1]; cbn [snd] in *.
    + exists (n :: counts). split; [cbn; lia|].
      rewrite (since_extension w _ (d ++ d')) by (rewrite E', E, app_assoc; reflexivity).
      rewrite flat_map_app, Q, Q'. reflexivity.
    + exists (n :: repeat 0%nat (List.length ws)).
      split; [cbn; rewrite repeat_length; reflexivity|].
      rewrite (since_extension _ _ _ E), Q. cbn [combine map List.concat fst snd].
      clear. rewrite <- (app_nil_r (repeat (address wallet) n)) at 1. f_equal.
      induction ws as [|x ws IH]; [reflexivity|]. cbn. exact IH.
Qed.

(** ** How long things take *)

Section Durations.

Variable env : Env.

Lemma countdownLoop_late (latency : N) nextRun ticks :
  (forall k, (lagAt env k <= latency)%N) ->
  forall w,
    clock w < nextRun + 1000 + Z.of_N latency ->
    clock (after (countdownLoop env ticks nextRun) w) < nextRun + 1000 + Z.of_N latency.
Proof.
  intros L. induction ticks as [|ticks IH]; intros w H.
  - exact H.
  - unfold after. rewrite countdownLoop_run.
    destruct (clock w <? nextRun) eqn:T; [|exact H].
    apply Z.ltb_lt in T. apply IH.
    unfold after, wait, await, advance, emit; cbn [snd clock].
    match goal with |- context [lagAt env ?k] => specialize (L k) end. lia.
Qed.

Lemma batch_duration wallet names : forall i w,
  clock w + 3000 * Z.of_nat (List.length names)
    <= clock (after (forIndex i names (slot env wallet)) w).
Proof.
  induction names as [|spec names IH]; intros i w.
  - unfold after; cbn. lia.
  - destruct (slot_trace env wallet i spec w) as (d & R & _ & _ & C).
    unfold after, result in *. cbn [forIndex]. rewrite run_bind.
    destruct (slot env wallet i spec w) as [r w1]; cbn [fst snd] in *. subst r.
    specialize (IH (S i) w1). cbn [List.length]. lia.
Qed.

End Durations.

(** X9: the wait for the next cycle ends at most one second and one
    latency late: when no awaited action is delayed by more than [latency]
    milliseconds and the wait starts before [nextRun], it ends with the
    clock at or after [nextRun] and less than 1000 ms plus [latency]
    after it. *)
Theorem countdown_ends_within_a_second env latency nextRun w :
  (forall k, (lagAt env k <= latency)%N) ->
  clock w < nextRun ->
  nextRun <= clock (after (countdown env nextRun) w)
            < nextRun + 1000 + Z.of_N latency.
Proof.
  intros L H. split.
  - destruct (countdown_trace env nextRun w) as (d & _ & _ & _ & _ & _ & Reached).
    exact Reached.
  - unfold after, countdown.
    apply (countdownLoop_late env latency nextRun _ L). lia.
Qed.

Lemma countdown_ends_within_a_second_witness :
  clock world0 + 5000 <= clock (after (countdown sampleEnv (clock world0 + 5000)) world0)
                       < clock world0 + 5000 + 1000 + Z.of_N 2.
Proof.
  apply (countdown_ends_within_a_second sampleEnv 2 (clock world0 + 5000) world0).
  - intros k. simpl. lia.
  - simpl. lia.
Defined.

(** X10: a wallet's batch of n names keeps the loop busy for at least
    3 n seconds, whatever the node answers: every slot ends with its own
    3000 ms delay. *)
Theorem batch_lasts_three_seconds_per_name env wallet w names :
  nameReply env (calls isGenerateNames w) = Ok names ->
  clock w + 3000 * Z.of_nat (List.length names)
    <= clock (after (walletBatch env wallet) w).
Proof.
  intros N. unfold after. rewrite walletBatch_run. cbv zeta. rewrite N.
  match goal with |- context [forIndex 0 names _ ?w0] =>
    pose proof (batch_duration env wallet names 0%nat w0) as D end.
  unfold after in D. cbn [emit clock] in D. exact D.
Qed.

Lemma batch_lasts_three_seconds_per_name_witness :
  clock world0 + 3000 * Z.of_nat (List.length twoSpecs)
    <= clock (after (walletBatch sampleEnv aliceWallet) world0).
Proof.
  apply (batch_lasts_three_seconds_per_name sampleEnv aliceWallet world0 twoSpecs).
  reflexivity.
Defined.

(** ** The text of the countdown *)

Lemma digitValue_digitChar d : 0 <= d < 10 -> digitValue (digitChar d) = Some d.
Proof.
  intros H. unfold digitValue, digitChar.
  rewrite nat_ascii_embedding by lia.
  replace (Z.of_nat (48 + Z.to_nat d)) with (48 + d) by lia.
  destruct (Z.leb_spec 48 (48 + d)); [|lia].
  destruct (Z.leb_spec (48 + d) 57); [|lia].
  cbn [andb]. f_equal. lia.
Qed.

Lemma readTwo_pad2 n :
  0 <= n < 100 -> readTwo (digitChar (n / 10)) (digitChar (n mod 10)) = Some n.
Proof.
  intros H. unfold readTwo.
  pose proof (Z.div_mod n 10 ltac:(lia)) as D.
  pose proof (Z.mod_pos_bound n 10 ltac:(lia)) as B.
  rewrite !digitValue_digitChar by lia. f_equal. lia.
Qed.

Lemma readClock_fields h1 h2 m1 m2 s1 s2 :
  readClock (String h1 (String h2 (String ":" (String m1 (String m2 (String ":"
      (String s1 (String s2 EmptyString))))))))
  = match readTwo h1 h2, readTwo m1 m2, readTwo s1 s2 with
    | Some h, Some m, Some sec => Some (h * 3600 + m * 60 + sec)
    | _, _, _ => None
    end.
Proof. reflexivity. Qed.

(** X11: the countdown text is the remaining time in whole seconds, as
    hours, minutes and seconds of two digits each, in this order: read back
    as "HH:MM:SS" it gives the whole seconds of the time shown, taken
    within a day.  So a remaining time below 24 hours shows its whole
    seconds, the full 24 hours show as "00:00:00", and a negative one
    shows the time left of the day before; the text is never longer or
    shorter than "HH:MM:SS". *)
Theorem countdown_text_shows_whole_seconds ms :
  - dayMs <= ms <= dayMs ->
  String.length (countdownText ms) = 8%nat /\
  readClock (countdownText ms) = Some ((ms / 1000) mod 86400) /\
  (ms / 1000) mod 86400
    = (if ms <? 0 then ms / 1000 + 86400
       else if ms <? dayMs then ms / 1000 else 0).
Proof.
  intros H. unfold dayMs in *. split; [reflexivity|].
  set (q := ms / 1000).
  assert (M : ms / 60000 = q / 60).
  { unfold q. rewrite Z.div_div by lia. reflexivity. }
  assert (Hr : ms / 3600000 = q / 3600).
  { unfold q. rewrite Z.div_div by lia. reflexivity. }
  assert (G : q / 60 / 60 = q / 3600) by (rewrite Z.div_div by lia; reflexivity).
  assert (D : q / 3600 / 24 = q / 86400) by (rewrite Z.div_div by lia; reflexivity).
  pose proof (Z.mod_pos_bound (q / 3600) 24 ltac:(lia)) as Bh.
  pose proof (Z.mod_pos_bound (q / 60) 60 ltac:(lia)) as Bm.
  pose proof (Z.mod_pos_bound q 60 ltac:(lia)) as Bs.
  pose proof (Z.div_mod (q / 3600) 24 ltac:(lia)) as Eh.
  pose proof (Z.div_mod (q / 60) 60 ltac:(lia)) as Em.
  pose proof (Z.div_mod q 60 ltac:(lia)) as Es.
  pose proof (Z.div_mod q 86400 ltac:(lia)) as Ed.
  split.
  - unfold countdownText, pad2. cbn [String.append]. fold q.
    rewrite readClock_fields, M, Hr, !readTwo_pad2 by lia.
    f_equal. lia.
  - assert (Q : - 86400 <= q <= 86400).
    { unfold q. split; [apply Z.div_le_lower_bound; lia|].
      apply Z.lt_succ_r, Z.div_lt_upper_bound; lia. }
    destruct (Z.ltb_spec ms 0) as [Neg|Pos].
    + assert (q < 0) by (unfold q; apply Z.div_lt_upper_bound; lia).
      symmetry. apply Z.mod_unique with (q := -1); lia.
    + destruct (Z.ltb_spec ms (24 * 60 * 60 * 1000)) as [Lt|Ge].
      * apply Z.mod_small. split; [unfold q; apply Z.div_pos; lia|].
        unfold q. apply Z.div_lt_upper_bound; lia.
      * assert (ms = 86400000) by lia. subst ms. reflexivity.
Qed.

Lemma countdown_text_shows_whole_seconds_witness :
  String.length (countdownText 3723004) = 8%nat /\
  readClock (countdownText 3723004) = Some ((3723004 / 1000) mod 86400) /\
  (3723004 / 1000) mod 86400
    = (if 3723004 <? 0 then 3723004 / 1000 + 86400
       else if 3723004 <? dayMs then 3723004 / 1000 else 0).
Proof.
  apply (countdown_text_shows_whole_seconds 3723004).
  unfold dayMs. lia.
Defined.

(** ** The remaining times shown *)

Lemma inCycle_not_shown e : inCycle e = true -> remainingShown e = [].
Proof. destruct e as [| | | | | | | |t []|[]| |]; simpl; intros H; trivial; discriminate. Qed.

(** X12: every remaining time the countdown shows during a cycle is at
    most 24 hours, and above zero but for the time that went by between
    the test of the clock and the reading that is shown: when no awaited
    action is late by more than [latency], it is above minus [latency].
    A remaining time of zero can be shown: it is, when one millisecond is
    left at the test and gone at the reading. *)
Theorem countdown_shows_at_most_a_day env latency w :
  (forall k, (lagAt env k <= latency)%N) ->
  Forall (fun r => - Z.of_N latency < r <= dayMs)
    (countdownShown (performed (cycle env) w)) /\
  countdownShown (performed (countdown sampleEnv (clock world0 + 1)) world0) = [0].
Proof.
  intros L. split; [|vm_compute; reflexivity].
  unfold performed, after. rewrite cycle_run.
  set (w0 := emit (EvLog (clock w) (LCycle (clock w))) w).
  destruct (wallets_trace env (wallets env) w0) as (d & n & E & F & _ & C).
  unfold after in *.
  destruct (forOf (wallets env) (walletBatch env) w0) as [[[]|e] w1]; cbn [snd] in *.
  - destruct (countdownLoop_trace env (clock w + dayMs)
                (countdownTicks (clock w + dayMs) w1) w1)
      as (d' & _ & E' & _ & _ & B & _).
    destruct (countdownLoop_turns env latency (clock w + dayMs)
                (countdownTicks (clock w + dayMs) w1) L w1)
      as (shown & E'' & P).
    unfold after, countdown in *.
    assert (D : d' = countdownTurns shown).
    { rewrite E' in E''. exact (app_inv_head _ _ _ E''). }
    subst d'. rewrite countdownShown_turns in B.
    rewrite (since_extension w _
               (EvLog (clock w) (LCycle (clock w)) :: d ++ countdownTurns shown)).
    + unfold countdownShown. cbn [flat_map remainingShown app].
      rewrite flat_map_app, (flat_map_none _ remainingShown d F inCycle_not_shown).
      cbn [app]. fold (countdownShown (countdownTurns shown)).
      rewrite countdownShown_turns.
      apply Forall_forall. intros r I.
      rewrite Forall_forall in P, B. specialize (P r I). specialize (B r I).
      unfold w0, emit in C; cbn [clock] in C. lia.
    + rewrite E', E. unfold w0, emit; cbn [trace]. rewrite <- !app_assoc. reflexivity.
  - rewrite (since_extension w _ (EvLog (clock w) (LCycle (clock w)) :: d)).
    + unfold countdownShown. cbn [flat_map remainingShown app].
      rewrite (flat_map_none _ remainingShown d F inCycle_not_shown). constructor.
    + rewrite E. unfold w0, emit; cbn [trace]. rewrite <- !app_assoc. reflexivity.
Qed.

Lemma countdown_shows_at_most_a_day_witness :
  Forall (fun r => - Z.of_N 2 < r <= dayMs)
    (countdownShown (performed (cycle sampleEnv) world0)) /\
  countdownShown (performed (countdown sampleEnv (clock world0 + 1)) world0) = [0].
Proof.
  apply (countdown_shows_at_most_a_day sampleEnv 2 world0).
  intros k. simpl. lia.
Defined.

(** ** Loading the configuration *)

Lemma split_nonempty separator s : split separator s <> [].
Proof.
  destruct s as [|c s]; cbn [split]; [discriminate|].
  destruct (Ascii.eqb c separator); [discriminate|].
  destruct (split separator s); discriminate.
Qed.

Lemma split_join separator s : joinWith separator (split separator s) = s.
Proof.
  induction s as [|c s IH]; [reflexivity|]. cbn [split].
  destruct (Ascii.eqb c separator) eqn:C.
  - apply Ascii.eqb_eq in C. subst c.
    pose proof (split_nonempty separator s) as N.
    destruct (split separator s) as [|p ps]; [contradiction|].
    cbn [joinWith String.append] in *. rewrite IH. reflexivity.
  - pose proof (split_nonempty separator s) as N.
    destruct (split separator s) as [|p ps]; [contradiction|].
    destruct ps as [|q qs]; cbn [joinWith String.append] in *; rewrite IH; reflexivity.
Qed.

Lemma split_pieces separator s :
  Forall (fun piece => contains separator piece = false) (split separator s).
Proof.
  induction s as [|c s IH]; [repeat constructor|]. cbn [split].
  destruct (Ascii.eqb c separator) eqn:C.
  - constructor; [reflexivity | exact IH].
  - destruct (split separator s) as [|p ps]; [repeat constructor; cbn; rewrite C; reflexivity|].
    inversion IH; subst. constructor; [|assumption].
    cbn [contains]. rewrite C. assumption.
Qed.

Lemma split_whole separator piece :
  contains separator piece = false -> split separator piece = [piece].
Proof.
  induction piece as [|c p IH]; [reflexivity|]. cbn [contains split]. intros H.
  apply orb_false_elim in H. destruct H as (C & H). rewrite C, (IH H). reflexivity.
Qed.

Lemma split_first separator piece rest :
  contains separator piece = false ->
  split separator (piece ++ String separator rest) = piece :: split separator rest.
Proof.
  induction piece as [|c p IH]; cbn [contains split String.append]; intros H.
  - rewrite Ascii.eqb_refl. reflexivity.
  - apply orb_false_elim in H. destruct H as (C & H). rewrite C, (IH H). reflexivity.
Qed.

Lemma join_split separator pieces :
  Forall (fun piece => contains separator piece = false) pieces ->
  pieces <> [] ->
  split separator (joinWith separator pieces) = pieces.
Proof.
  induction pieces as [|p [|q rest] IH]; intros F N.
  - contradiction.
  - inversion F; subst. apply split_whole. assumption.
  - inversion F; subst. cbn [joinWith].
    rewrite split_first by assumption. f_equal. apply IH; [assumption | discriminate].
Qed.

Lemma split_trailing separator s :
  split separator (s ++ String separator "") = split separator s ++ [""].
Proof.
  induction s as [|c s IH]; cbn [split String.append].
  - rewrite Ascii.eqb_refl. reflexivity.
  - destruct (Ascii.eqb c separator); [rewrite IH; reflexivity|].
    rewrite IH. pose proof (split_nonempty separator s) as N.
    destruct (split separator s); [contradiction | reflexivity].
Qed.

(** X13: the script loads its keys only when [PRIVATE_KEYS] is set: with
    the variable unset, [process.env.PRIVATE_KEYS.split(",")] throws a
    TypeError at load time.  When it is set, even to the empty text, the
    load yields at least one key; no key contains a comma, and the keys
    joined by commas give the variable back, so nothing of it is dropped or
    trimmed: an empty variable gives one empty key. *)
Theorem private_keys_are_the_comma_fields :
  privateKeys None = Throw "Cannot read properties of undefined (reading 'split')" /\
  (forall value,
     exists keys,
       privateKeys (Some value) = Ok keys /\
       keys <> [] /\
       Forall (fun key => contains comma key = false) keys /\
       joinWith comma keys = value) /\
  privateKeys (Some "") = Ok [""] /\
  privateKeys (Some "k1,,k2,") = Ok ["k1"; ""; "k2"; ""].
Proof.
  split; [reflexivity|]. split; [|split; reflexivity].
  intros value. exists (split comma value). unfold privateKeys. repeat split.
  - apply split_nonempty.
  - apply split_pieces.
  - apply split_join.
Qed.

(** X14: the recipient pool is made of the non-empty lines of
    addresses.txt, in the order of the file: no address is empty or
    contains a line feed, blank lines are skipped, and a line feed at the
    end of the file adds no address. *)
Theorem addresses_are_the_non_empty_lines lines :
  Forall (fun line => contains newline line = false) lines ->
  loadAddresses (joinWith newline lines) = filter nonEmpty lines /\
  loadAddresses (joinWith newline lines ++ String newline "") = filter nonEmpty lines /\
  (forall text,
     Forall (fun a => nonEmpty a = true /\ contains newline a = false)
       (loadAddresses text)).
Proof.
  intros F.
  assert (L : loadAddresses (joinWith newline lines) = filter nonEmpty lines).
  { unfold loadAddresses. destruct lines as [|l ls]; [reflexivity|].
    rewrite join_split; [reflexivity | exact F | discriminate]. }
  split; [exact L|]. split.
  - unfold loadAddresses in *. rewrite split_trailing, filter_app, L.
    cbn [filter nonEmpty]. apply app_nil_r.
  - intros text. unfold loadAddresses. apply Forall_forall. intros a I.
    apply filter_In in I. destruct I as (I & N). split; [exact N|].
    pose proof (split_pieces newline text) as P. rewrite Forall_forall in P.
    exact (P a I).
Qed.

Lemma addresses_are_the_non_empty_lines_witness :
  loadAddresses (joinWith newline ["0x01"; ""; "0x02"]) = filter nonEmpty ["0x01"; ""; "0x02"] /\
  loadAddresses (joinWith newline ["0x01"; ""; "0x02"] ++ String newline "")
    = filter nonEmpty ["0x01"; ""; "0x02"] /\
  (forall text,
     Forall (fun a => nonEmpty a = true /\ contains newline a = false)
       (loadAddresses text)).
Proof.
  apply (addresses_are_the_non_empty_lines ["0x01"; ""; "0x02"]).
  repeat constructor.
Defined.

(** ** What can end the loop *)

Section Origin.

Variable env : Env.

Lemma wallets_throw_origin ws : forall w e,
  result (forOf ws (walletBatch env)) w = Throw e ->
  exists k, nameReply env k = Throw e.
Proof.
  induction ws as [|wallet ws IH]; intros w e R.
  - discriminate.
  - destruct (walletBatch_trace env wallet w) as (d & n & _ & _ & _ & _ & _ & B).
    unfold result in *. cbn [forOf] in R. rewrite run_bind in R.
    destruct (nameReply env (calls isGenerateNames w)) as [names|e'] eqn:N;
      destruct B as (B & _);
      destruct (walletBatch env wallet w) as [r w1]; cbn [fst] in B; subst r.
    + exact (IH w1 e R).
    + cbn [fst] in R. injection R as <-. exists (calls isGenerateNames w). exact N.
Qed.

Lemma whileTrue_throw_origin cycles : forall w e,
  result (whileTrue env cycles) w = Throw e ->
  exists k, nameReply env k = Throw e.
Proof.
  induction cycles as [|cycles IH]; intros w e R.
  - discriminate.
  - unfold result in *. cbn [whileTrue] in R. rewrite run_bind in R.
    destruct (cycle env w) as [[u|e'] w1] eqn:C.
    + exact (IH w1 e R).
    + cbn [fst] in R. injection R as <-.
      rewrite cycle_run in C.
      set (w0 := emit (EvLog (clock w) (LCycle (clock w))) w) in C.
      destruct (forOf (wallets env) (walletBatch env) w0) as [[[]|e''] w2] eqn:W.
      * pose proof (countdown_trace env (clock w + dayMs) w2) as (d & Rc & _).
        unfold result in Rc. rewrite C in Rc. discriminate.
      * injection C as <- <-. apply (wallets_throw_origin (wallets env) w0).
        unfold result. rewrite W. reflexivity.
Qed.

End Origin.

(** X15: the only failure that ends the loop is one of the name generator:
    whenever [mainLoop] throws, and so whenever the process exits with
    code 1, what it throws was thrown by a call of [generateUniqueNames];
    no answer of the compiler or of the node can end the process. *)
Theorem only_name_generation_ends_the_loop env cycles w e :
  result (mainLoop env cycles) w = Throw e ->
  (exists k, nameReply env k = Throw e) /\
  last (trace (main env cycles w)) (EvStatus None) = EvExit 1.
Proof.
  intros R. split.
  - unfold result in R. rewrite mainLoop_run in R.
    exact (whileTrue_throw_origin env cycles _ e R).
  - unfold main, result in *.
    destruct (mainLoop env cycles w) as [r w1]; cbn [fst] in R. subst r.
    cbn [log snd emit trace]. apply last_last.
Qed.

Lemma only_name_generation_ends_the_loop_witness :
  (exists k, nameReply exhaustedEnv k = Throw "GenerationExhausted") /\
  last (trace (main exhaustedEnv 3 world0)) (EvStatus None) = EvExit 1.
Proof.
  apply (only_name_generation_ends_the_loop exhaustedEnv 3 world0 "GenerationExhausted").
  vm_compute. reflexivity.
Defined.
